(** * Pong: Grok Edition -- the game state and its per-frame update

    A shallow embedding of the [Game] class of the program and of the part of
    the outer loop that touches it.  Integers are Python integers, hence [Z];
    the rectangles are [pygame.Rect] values (integer x, y, width, height) with
    the attributes the program reads and assigns.  The sounds an update plays
    are returned next to the new state, in the order in which they are
    played.  Time and the keyboard are inputs of [update]. *)

From Stdlib Require Import ZArith List Bool Lia String DecimalString.
Import ListNotations.
Open Scope Z_scope.

(** ** Constants *)

Definition WIDTH : Z := 640.
Definition HEIGHT : Z := 480.
Definition PADDLE_WIDTH : Z := 10.
Definition PADDLE_HEIGHT : Z := 60.
Definition BALL_SIZE : Z := 10.
Definition PADDLE_SPEED : Z := 3.
Definition BALL_SPEED : Z := 4.

(** ** Rectangles

    The attributes of [pygame.Rect] used by the program.  [top], [left],
    [bottom], [right], [centerx] and [centery] are derived from the four
    stored integers; the library computes the halves with C division, which
    truncates ([Z.quot]).  Assigning [y] or [center] moves the rectangle and
    keeps its size. *)

Module Rect.

Record t : Set := mk { x : Z; y : Z; w : Z; h : Z }.

Definition top (r : t) : Z := y r.
Definition left (r : t) : Z := x r.
Definition bottom (r : t) : Z := y r + h r.
Definition right (r : t) : Z := x r + w r.
Definition centerx (r : t) : Z := x r + Z.quot (w r) 2.
Definition centery (r : t) : Z := y r + Z.quot (h r) 2.
Definition center (r : t) : Z * Z := (centerx r, centery r).

Definition set_x (v : Z) (r : t) : t := mk v (y r) (w r) (h r).
Definition set_y (v : Z) (r : t) : t := mk (x r) v (w r) (h r).

(** [r.center = (cx, cy)] *)
Definition set_center (c : Z * Z) (r : t) : t :=
  mk (fst c - Z.quot (w r) 2) (snd c - Z.quot (h r) 2) (w r) (h r).

(** [a.colliderect(b)]: the two rectangles overlap; touching edges do not
    count and a rectangle of width or height 0 collides with nothing. *)
Definition colliderect (a b : t) : bool :=
  if (w a =? 0) || (h a =? 0) || (w b =? 0) || (h b =? 0) then false
  else (Z.min (x a) (x a + w a) <? Z.max (x b) (x b + w b))
    && (Z.min (y a) (y a + h a) <? Z.max (y b) (y b + h b))
    && (Z.min (x b) (x b + w b) <? Z.max (x a) (x a + w a))
    && (Z.min (y b) (y b + h b) <? Z.max (y a) (y a + h a)).

End Rect.

(** ** Game state *)

Record Game : Set := mkGame {
  paddle1 : Rect.t;
  paddle2 : Rect.t;
  ball : Rect.t;
  ball_speed : Z * Z;
  score1 : Z;
  score2 : Z;
  ai_active : bool;
  last_update : Z;
  insert_coin : bool;
  game_over : bool
}.

Definition with_paddle1 (r : Rect.t) (g : Game) : Game :=
  mkGame r (paddle2 g) (ball g) (ball_speed g) (score1 g) (score2 g)
         (ai_active g) (last_update g) (insert_coin g) (game_over g).
Definition with_paddle2 (r : Rect.t) (g : Game) : Game :=
  mkGame (paddle1 g) r (ball g) (ball_speed g) (score1 g) (score2 g)
         (ai_active g) (last_update g) (insert_coin g) (game_over g).
Definition with_ball (r : Rect.t) (g : Game) : Game :=
  mkGame (paddle1 g) (paddle2 g) r (ball_speed g) (score1 g) (score2 g)
         (ai_active g) (last_update g) (insert_coin g) (game_over g).
Definition with_ball_speed (v : Z * Z) (g : Game) : Game :=
  mkGame (paddle1 g) (paddle2 g) (ball g) v (score1 g) (score2 g)
         (ai_active g) (last_update g) (insert_coin g) (game_over g).
Definition with_score1 (n : Z) (g : Game) : Game :=
  mkGame (paddle1 g) (paddle2 g) (ball g) (ball_speed g) n (score2 g)
         (ai_active g) (last_update g) (insert_coin g) (game_over g).
Definition with_score2 (n : Z) (g : Game) : Game :=
  mkGame (paddle1 g) (paddle2 g) (ball g) (ball_speed g) (score1 g) n
         (ai_active g) (last_update g) (insert_coin g) (game_over g).
Definition with_ai_active (b : bool) (g : Game) : Game :=
  mkGame (paddle1 g) (paddle2 g) (ball g) (ball_speed g) (score1 g) (score2 g)
         b (last_update g) (insert_coin g) (game_over g).
Definition with_last_update (n : Z) (g : Game) : Game :=
  mkGame (paddle1 g) (paddle2 g) (ball g) (ball_speed g) (score1 g) (score2 g)
         (ai_active g) n (insert_coin g) (game_over g).
Definition with_insert_coin (b : bool) (g : Game) : Game :=
  mkGame (paddle1 g) (paddle2 g) (ball g) (ball_speed g) (score1 g) (score2 g)
         (ai_active g) (last_update g) b (game_over g).
Definition with_game_over (b : bool) (g : Game) : Game :=
  mkGame (paddle1 g) (paddle2 g) (ball g) (ball_speed g) (score1 g) (score2 g)
         (ai_active g) (last_update g) (insert_coin g) b.

(** ** [Game.reset]

    Assigns the three rectangles, the velocity, both scores and two flags;
    [ai_active] and [last_update] are left as they are. *)

Definition reset (g : Game) : Game :=
  mkGame
    (Rect.mk 50 (HEIGHT / 2 - PADDLE_HEIGHT / 2) PADDLE_WIDTH PADDLE_HEIGHT)
    (Rect.mk (WIDTH - 50 - PADDLE_WIDTH) (HEIGHT / 2 - PADDLE_HEIGHT / 2)
             PADDLE_WIDTH PADDLE_HEIGHT)
    (Rect.mk (WIDTH / 2) (HEIGHT / 2) BALL_SIZE BALL_SIZE)
    (BALL_SPEED, BALL_SPEED)
    0
    0
    (ai_active g)
    (last_update g)
    false
    false.

(** ** [Game.__init__]

    [reset] runs on the object before [ai_active] and [last_update] exist;
    the constructor assigns both right after and never reads them before, so
    the values they are given here for the call of [reset] play no role.
    [now] is what [pygame.time.get_ticks()] returns. *)

Definition unset : Game :=
  let z := Rect.mk 0 0 0 0 in mkGame z z z (0, 0) 0 0 false 0 false false.

Definition new_game (now : Z) : Game :=
  with_game_over false
    (with_insert_coin true
       (with_last_update now
          (with_ai_active true (reset unset)))).

(** ** [Game.update] *)

(** The four entries of [pygame.key.get_pressed()] that [update] reads. *)
Record Keys : Set := mkKeys {
  K_w : bool; K_s : bool; K_UP : bool; K_DOWN : bool
}.

Inductive Sound : Set := boop_sound | beep_sound | score_sound.

(** The keyboard block, the same for both paddles: up when the up key is
    held and the top is below 0's line, then down when the down key is held
    and the bottom (of the paddle as it is by then) is above [HEIGHT]. *)
Definition key_move (up down : bool) (p : Rect.t) : Rect.t :=
  let p := if up && (0 <? Rect.top p)
           then Rect.set_y (Rect.y p - PADDLE_SPEED) p else p in
  let p := if down && (Rect.bottom p <? HEIGHT)
           then Rect.set_y (Rect.y p + PADDLE_SPEED) p else p in
  p.

(** The AI block for paddle two; [b] is the ball before it is advanced. *)
Definition ai_move (b p : Rect.t) : Rect.t :=
  let p := if (Rect.centery p + 30 <? Rect.centery b) && (Rect.bottom p <? HEIGHT)
           then Rect.set_y (Rect.y p + PADDLE_SPEED) p else p in
  let p := if (Rect.centery b <? Rect.centery p - 30) && (0 <? Rect.top p)
           then Rect.set_y (Rect.y p - PADDLE_SPEED) p else p in
  p.

Definition move_paddles (keys : Keys) (g : Game) : Game :=
  let g := with_paddle1 (key_move (K_w keys) (K_s keys) (paddle1 g)) g in
  if negb (ai_active g)
  then with_paddle2 (key_move (K_UP keys) (K_DOWN keys) (paddle2 g)) g
  else with_paddle2 (ai_move (ball g) (paddle2 g)) g.

Definition advance_ball (g : Game) : Game :=
  let b := ball g in
  let b := Rect.set_x (Rect.x b + fst (ball_speed g)) b in
  let b := Rect.set_y (Rect.y b + snd (ball_speed g)) b in
  with_ball b g.

(** Steps that may play a sound return the new state and what was played. *)
Definition Step : Set := Game -> Game * list Sound.

Definition and_then (m : Game * list Sound) (f : Step) : Game * list Sound :=
  let (g, s) := m in
  let (g', s') := f g in
  (g', s ++ s').

Notation "m >>> f" := (and_then m f) (at level 50, left associativity).

Definition hits_wall (g : Game) : bool :=
  (Rect.top (ball g) <=? 0) || (HEIGHT <=? Rect.bottom (ball g)).

Definition hits_paddle (g : Game) : bool :=
  Rect.colliderect (ball g) (paddle1 g) || Rect.colliderect (ball g) (paddle2 g).

Definition past_left (g : Game) : bool := Rect.left (ball g) <=? 0.
Definition past_right (g : Game) : bool := WIDTH <=? Rect.right (ball g).

Definition wall_bounce : Step := fun g =>
  if hits_wall g
  then (with_ball_speed (fst (ball_speed g), - snd (ball_speed g)) g, [boop_sound])
  else (g, []).

Definition paddle_bounce : Step := fun g =>
  if hits_paddle g
  then (with_ball_speed (- fst (ball_speed g), snd (ball_speed g)) g, [beep_sound])
  else (g, []).

Definition serve (vx : Z) (g : Game) : Game :=
  with_ball_speed (vx, BALL_SPEED)
    (with_ball (Rect.set_center (WIDTH / 2, HEIGHT / 2) (ball g)) g).

Definition score_left : Step := fun g =>
  if past_left g
  then (serve BALL_SPEED (with_score2 (score2 g + 1) g), [score_sound])
  else (g, []).

Definition score_right : Step := fun g =>
  if past_right g
  then (serve (- BALL_SPEED) (with_score1 (score1 g + 1) g), [score_sound])
  else (g, []).

Definition win_check (g : Game) : Game :=
  if (5 <=? score1 g) || (5 <=? score2 g) then with_game_over true g else g.

(** What [update] does once it is past its two early returns. *)
Definition tick (keys : Keys) (now : Z) (g : Game) : Game * list Sound :=
  let g := with_last_update now g in
  let g := move_paddles keys g in
  let g := advance_ball g in
  let (g, s) := (g, []) >>> wall_bounce >>> paddle_bounce
                        >>> score_left >>> score_right in
  (win_check g, s).

Definition update (keys : Keys) (now : Z) (g : Game) : Game * list Sound :=
  if game_over g then (g, [])
  else if now - last_update g <? 32 then (g, [])
  else tick keys now g.

(** An update is effective when it gets past both early returns. *)
Definition effective (now : Z) (g : Game) : Prop :=
  game_over g = false /\ 32 <= now - last_update g.

(** ** The part of [main] that acts on the game *)

Inductive Key : Set := K_ESCAPE | K_r | K_1 | K_2 | K_y | K_n | K_other.
Inductive Event : Set := QUIT | KEYDOWN (k : Key) | OTHER.

Definition key_eqb (a b : Key) : bool :=
  match a, b with
  | K_ESCAPE, K_ESCAPE | K_r, K_r | K_1, K_1 | K_2, K_2
  | K_y, K_y | K_n, K_n | K_other, K_other => true
  | _, _ => false
  end.

(** One event of the event loop, on the game and the [running] flag. *)
Definition handle_event (e : Event) (st : Game * bool) : Game * bool :=
  match e with
  | QUIT => (fst st, false)
  | OTHER => st
  | KEYDOWN k =>
      let (g, running) := st in
      let running := if key_eqb k K_ESCAPE then false else running in
      let g := if key_eqb k K_r then reset g else g in
      let g := if key_eqb k K_2 then with_ai_active false g else g in
      let g := if key_eqb k K_1 then with_ai_active true g else g in
      let (g, running) :=
        if game_over g
        then (if key_eqb k K_y then reset g else g,
              if key_eqb k K_n then false else running)
        else (g, running) in
      (with_insert_coin false g, running)
  end.

(** One iteration of the loop: the pending events, then [update]; the
    drawing reads the state and changes nothing. *)
Definition frame (events : list Event) (keys : Keys) (now : Z)
    (st : Game * bool) : Game * bool * list Sound :=
  let (g, running) := fold_left (fun s e => handle_event e s) events st in
  let (g', snd_) := update keys now g in
  (g', running, snd_).

(** ** [Game.draw]

    The frame is the list of requests [draw] makes of the display, in the
    order it makes them; a later request paints over an earlier one.  The
    width of a rendered text depends on the font and is a parameter. *)

Inductive Color : Set := WHITE | BLACK | SCANLINE_COLOR.

Inductive Draw : Set :=
| Fill (c : Color)
| DrawRect (c : Color) (r : Rect.t)
| DrawLine (c : Color) (p q : Z * Z)
| Blit (text : string) (c : Color) (pos : Z * Z).

(** [range(start, stop, step)] for a positive [step]. *)
Definition py_range (start stop step : Z) : list Z :=
  map (fun i => start + step * Z.of_nat i)
      (seq 0 (Z.to_nat ((stop - start + step - 1) / step))).

(** An integer as an f-string prints it: in decimal, with a minus sign when
    it is negative. *)
Definition str (n : Z) : string := NilZero.string_of_int (Z.to_int n).

Definition score_text (g : Game) : string :=
  (str (score1 g) ++ " - " ++ str (score2 g))%string.

Section Draw.

Variable get_width : string -> Z.

(** A white text, rendered and blitted with its middle on the vertical axis
    of the field and its top at row [row]. *)
Definition centred (text : string) (row : Z) : Draw :=
  Blit text WHITE (WIDTH / 2 - get_width text / 2, row).

Definition draw (g : Game) : list Draw :=
  [Fill BLACK;
   DrawRect WHITE (paddle1 g); DrawRect WHITE (paddle2 g); DrawRect WHITE (ball g)]
  ++ map (fun y => DrawRect WHITE (Rect.mk (WIDTH / 2 - 2) y 4 4))
         (py_range 0 HEIGHT 10)
  ++ [centred (score_text g) 20]
  ++ map (fun y => DrawLine SCANLINE_COLOR (0, y) (WIDTH, y))
         (py_range 0 HEIGHT 4)
  ++ (if insert_coin g then [centred "INSERT COIN" (HEIGHT / 2)] else [])
  ++ (if game_over g then [centred "Play Again? Y/N" (HEIGHT / 2)] else []).

End Draw.

(** States the program can be in: the constructed game, and whatever an
    event or an update makes of a state it can be in. *)
Inductive reachable : Game -> Prop :=
| reach_new : forall now, reachable (new_game now)
| reach_event : forall e g running,
    reachable g -> reachable (fst (handle_event e (g, running)))
| reach_update : forall keys now g,
    reachable g -> reachable (fst (update keys now g)).

(** [n] effective updates in a row, one every 32 ms, with the same keys. *)
Fixpoint run (keys : Keys) (n : nat) (g : Game) : Game :=
  match n with
  | O => g
  | S n => run keys n (fst (update keys (last_update g + 32) g))
  end.

Definition no_keys : Keys := mkKeys false false false false.

(** ** States named in the statements below *)

(** The state once the paddles have moved, and once the ball has been
    advanced as well: the collision and scoring tests are made on the
    latter's rectangles. *)
Definition after_moves (keys : Keys) (now : Z) (g : Game) : Game :=
  move_paddles keys (with_last_update now g).

Definition advanced (keys : Keys) (now : Z) (g : Game) : Game :=
  advance_ball (after_moves keys now g).

(** The state on which the two scoring tests start. *)
Definition bounced (keys : Keys) (now : Z) (g : Game) : Game :=
  fst (paddle_bounce (fst (wall_bounce (advanced keys now g)))).

(** The rectangles have the sizes, and the paddles the columns, that
    [reset] gives them; no statement of the program changes them. *)
Record shaped (g : Game) : Prop := {
  shaped_p1 : Rect.x (paddle1 g) = 50 /\ Rect.w (paddle1 g) = PADDLE_WIDTH
              /\ Rect.h (paddle1 g) = PADDLE_HEIGHT;
  shaped_p2 : Rect.x (paddle2 g) = WIDTH - 50 - PADDLE_WIDTH
              /\ Rect.w (paddle2 g) = PADDLE_WIDTH
              /\ Rect.h (paddle2 g) = PADDLE_HEIGHT;
  shaped_ball : Rect.w (ball g) = BALL_SIZE /\ Rect.h (ball g) = BALL_SIZE
}.

(** Each component of the velocity is [BALL_SPEED] or its opposite. *)
Definition unit_speed (v : Z * Z) : Prop :=
  (fst v = BALL_SPEED \/ fst v = - BALL_SPEED) /\
  (snd v = BALL_SPEED \/ snd v = - BALL_SPEED).

(** A rectangle lies within the vertical bounds of the field. *)
Definition in_field (r : Rect.t) : Prop :=
  0 <= Rect.top r /\ Rect.bottom r <= HEIGHT.

Definition paddles_in_field (g : Game) : Prop :=
  in_field (paddle1 g) /\ in_field (paddle2 g).

(** A paddle of the height [reset] gives it whose top is a whole number of
    paddle steps below the top of the field. *)
Definition on_grid (r : Rect.t) : Prop :=
  Rect.h r = PADDLE_HEIGHT /\ Rect.y r mod PADDLE_SPEED = 0.

Definition paddles_on_grid (g : Game) : Prop :=
  on_grid (paddle1 g) /\ on_grid (paddle2 g).

(** The match-concluded flag agrees with the scores. *)
Definition over_iff_won (g : Game) : Prop :=
  game_over g = true <-> (5 <= score1 g \/ 5 <= score2 g).

(** [vx] points from the ball [b] to the side of the paddle [p]. *)
Definition toward (vx : Z) (b p : Rect.t) : Prop :=
  0 < vx * (Rect.centerx p - Rect.centerx b).

(** ** How [update] and the events decompose *)

Lemma update_effective keys now g :
  effective now g -> update keys now g = tick keys now g.
Proof.
  intros [Hover Hlate]. unfold update. rewrite Hover.
  destruct (Z.ltb_spec (now - last_update g) 32); [lia | reflexivity].
Qed.

Lemma update_cases keys now g :
  (update keys now g = (g, [])) \/
  (effective now g /\ update keys now g = tick keys now g).
Proof.
  unfold update, effective.
  destruct (game_over g); [now left|].
  destruct (Z.ltb_spec (now - last_update g) 32); [now left|].
  right. repeat split; lia.
Qed.

Lemma tick_fst keys now g :
  fst (tick keys now g) =
  win_check (fst (score_right (fst (score_left (bounced keys now g))))).
Proof.
  unfold tick, bounced, advanced, after_moves, and_then.
  destruct (wall_bounce _) as [g1 s1]. cbn [fst].
  destruct (paddle_bounce g1) as [g2 s2]. cbn [fst].
  destruct (score_left g2) as [g3 s3]. cbn [fst].
  destruct (score_right g3) as [g4 s4]. reflexivity.
Qed.

(** An event resets the game, or changes at most [ai_active] and
    [insert_coin]. *)
Lemma handle_event_cases e g running :
  let g' := fst (handle_event e (g, running)) in
  g' = reset g \/ g' = g \/
  (exists b, g' = with_insert_coin false (with_ai_active b g)) \/
  g' = with_insert_coin false g.
Proof.
  destruct e as [| k |]; cbn; auto.
  destruct k; cbn; destruct (game_over g) eqn:E; cbn; rewrite ?E; cbn; eauto.
Qed.

(** A property of all reachable states is one that the constructor
    establishes and that [reset], the two flag assignments of the event loop
    and an effective update preserve. *)
Lemma reachable_ind_ops (P : Game -> Prop) :
  (forall now, P (new_game now)) ->
  (forall g, P g -> P (reset g)) ->
  (forall b g, P g -> P (with_ai_active b g)) ->
  (forall g, P g -> P (with_insert_coin false g)) ->
  (forall keys now g, P g -> effective now g -> P (fst (tick keys now g))) ->
  forall g, reachable g -> P g.
Proof.
  intros Hnew Hreset Hai Hcoin Htick g Hg.
  induction Hg as [now | e g running _ IH | keys now g _ IH].
  - apply Hnew.
  - destruct (handle_event_cases e g running) as [H | [H | [[b H] | H]]];
      cbv zeta in H; rewrite H; auto.
  - destruct (update_cases keys now g) as [H | [Heff H]]; rewrite H; cbn [fst]; auto.
Qed.

Lemma reachable_run keys n : forall g, reachable g -> reachable (run keys n g).
Proof.
  induction n as [| n IH]; intros g Hg; cbn [run]; [exact Hg|].
  apply IH, reach_update, Hg.
Qed.

(** ** What each phase of an update leaves alone *)

Ltac consts :=
  cbv [WIDTH HEIGHT PADDLE_WIDTH PADDLE_HEIGHT BALL_SIZE PADDLE_SPEED BALL_SPEED] in *.

Lemma key_move_size up down p :
  Rect.x (key_move up down p) = Rect.x p /\
  Rect.w (key_move up down p) = Rect.w p /\
  Rect.h (key_move up down p) = Rect.h p.
Proof.
  unfold key_move.
  destruct (up && _); destruct (down && _); cbn; auto.
Qed.

Lemma ai_move_size b p :
  Rect.x (ai_move b p) = Rect.x p /\
  Rect.w (ai_move b p) = Rect.w p /\
  Rect.h (ai_move b p) = Rect.h p.
Proof.
  unfold ai_move.
  destruct (_ && _); destruct (_ && _); cbn; auto.
Qed.

Lemma after_moves_paddle1 keys now g :
  paddle1 (after_moves keys now g) = key_move (K_w keys) (K_s keys) (paddle1 g).
Proof.
  unfold after_moves, move_paddles. cbn. destruct (negb (ai_active g)); reflexivity.
Qed.

Lemma after_moves_paddle2 keys now g :
  paddle2 (after_moves keys now g) =
  if negb (ai_active g) then key_move (K_UP keys) (K_DOWN keys) (paddle2 g)
  else ai_move (ball g) (paddle2 g).
Proof.
  unfold after_moves, move_paddles. cbn. destruct (negb (ai_active g)); reflexivity.
Qed.

Lemma after_moves_rest keys now g :
  ball (after_moves keys now g) = ball g /\
  ball_speed (after_moves keys now g) = ball_speed g /\
  score1 (after_moves keys now g) = score1 g /\
  score2 (after_moves keys now g) = score2 g /\
  game_over (after_moves keys now g) = game_over g.
Proof.
  unfold after_moves, move_paddles. cbn.
  destruct (negb (ai_active g)); cbn; auto.
Qed.

Lemma advanced_ball keys now g :
  ball (advanced keys now g) =
  Rect.mk (Rect.x (ball g) + fst (ball_speed g))
          (Rect.y (ball g) + snd (ball_speed g))
          (Rect.w (ball g)) (Rect.h (ball g)).
Proof.
  unfold advanced, advance_ball.
  destruct (after_moves_rest keys now g) as (Hb & Hv & _).
  cbn. rewrite Hb, Hv. reflexivity.
Qed.

Lemma advanced_rest keys now g :
  paddle1 (advanced keys now g) = paddle1 (after_moves keys now g) /\
  paddle2 (advanced keys now g) = paddle2 (after_moves keys now g) /\
  ball_speed (advanced keys now g) = ball_speed g /\
  score1 (advanced keys now g) = score1 g /\
  score2 (advanced keys now g) = score2 g /\
  game_over (advanced keys now g) = game_over g.
Proof.
  destruct (after_moves_rest keys now g) as (_ & Hv & H1 & H2 & Ho).
  unfold advanced, advance_ball. cbn. repeat split; assumption.
Qed.

(** The two bounces change the velocity only, each its own component. *)
Lemma bounced_speed keys now g :
  let a := advanced keys now g in
  ball_speed (bounced keys now g) =
  ((if hits_paddle a then - fst (ball_speed g) else fst (ball_speed g)),
   (if hits_wall a then - snd (ball_speed g) else snd (ball_speed g))).
Proof.
  cbv zeta. unfold bounced.
  destruct (advanced_rest keys now g) as (_ & _ & Hv & _).
  revert Hv. generalize (advanced keys now g). intros a Hv.
  unfold wall_bounce. destruct (hits_wall a); cbn [fst];
    unfold paddle_bounce, hits_paddle; cbn [ball paddle1 paddle2 with_ball_speed];
    fold (hits_paddle a); destruct (hits_paddle a); cbn; rewrite ?Hv;
    destruct (ball_speed g); reflexivity.
Qed.

Lemma bounced_rest keys now g :
  let a := advanced keys now g in
  paddle1 (bounced keys now g) = paddle1 a /\
  paddle2 (bounced keys now g) = paddle2 a /\
  ball (bounced keys now g) = ball a /\
  score1 (bounced keys now g) = score1 g /\
  score2 (bounced keys now g) = score2 g /\
  game_over (bounced keys now g) = game_over g.
Proof.
  cbv zeta. unfold bounced.
  destruct (advanced_rest keys now g) as (_ & _ & _ & H1 & H2 & Ho).
  revert H1 H2 Ho. generalize (advanced keys now g). intros a H1 H2 Ho.
  unfold wall_bounce. destruct (hits_wall a); cbn [fst];
    unfold paddle_bounce; destruct (hits_paddle _); cbn; auto 7.
Qed.

Lemma bounced_past_left keys now g :
  past_left (bounced keys now g) = past_left (advanced keys now g).
Proof.
  unfold past_left. now destruct (bounced_rest keys now g) as (_ & _ & -> & _).
Qed.

Lemma bounced_past_right keys now g :
  past_right (bounced keys now g) = past_right (advanced keys now g).
Proof.
  unfold past_right. now destruct (bounced_rest keys now g) as (_ & _ & -> & _).
Qed.

(** A ball of the program's size, once served from the centre, is not past
    the right boundary. *)
Lemma serve_not_past_right vx g :
  Rect.w (ball g) = BALL_SIZE -> past_right (serve vx g) = false.
Proof.
  intros Hw. unfold past_right, serve, Rect.right. cbn. rewrite Hw.
  reflexivity.
Qed.

(** A ball of the program's size is not past both boundaries at once. *)
Lemma past_right_not_left g :
  Rect.w (ball g) = BALL_SIZE -> past_right g = true -> past_left g = false.
Proof.
  unfold past_right, past_left, Rect.right, Rect.left. intros ->. consts.
  intros H%Z.leb_le. apply Z.leb_gt. lia.
Qed.

(** The outcome of the two scoring tests and of the win test, by case. *)
Inductive tick_outcome (keys : Keys) (now : Z) (g : Game) : Game -> Prop :=
| outcome_left :
    past_left (advanced keys now g) = true ->
    tick_outcome keys now g
      (win_check (serve BALL_SPEED
         (with_score2 (score2 g + 1) (bounced keys now g))))
| outcome_right :
    past_left (advanced keys now g) = false ->
    past_right (advanced keys now g) = true ->
    tick_outcome keys now g
      (win_check (serve (- BALL_SPEED)
         (with_score1 (score1 g + 1) (bounced keys now g))))
| outcome_play :
    past_left (advanced keys now g) = false ->
    past_right (advanced keys now g) = false ->
    tick_outcome keys now g (win_check (bounced keys now g)).

Lemma tick_outcomes keys now g :
  Rect.w (ball g) = BALL_SIZE ->
  tick_outcome keys now g (fst (tick keys now g)).
Proof.
  intros Hw. rewrite tick_fst.
  pose proof (bounced_past_left keys now g) as HL.
  pose proof (bounced_past_right keys now g) as HR.
  destruct (bounced_rest keys now g) as (_ & _ & Hb & H1 & H2 & _).
  cbv zeta in Hb.
  assert (Hwb : Rect.w (ball (bounced keys now g)) = BALL_SIZE)
    by (rewrite Hb, advanced_ball; exact Hw).
  set (b := bounced keys now g) in *.
  unfold score_left. destruct (past_left b) eqn:EL; cbn [fst].
  - unfold score_right. rewrite serve_not_past_right by exact Hwb. cbn [fst].
    rewrite H2. apply outcome_left. congruence.
  - unfold score_right. destruct (past_right b) eqn:ER; cbn [fst].
    + rewrite H1. apply outcome_right; congruence.
    + apply outcome_play; congruence.
Qed.

Lemma win_check_rest g :
  paddle1 (win_check g) = paddle1 g /\ paddle2 (win_check g) = paddle2 g /\
  ball (win_check g) = ball g /\ ball_speed (win_check g) = ball_speed g /\
  score1 (win_check g) = score1 g /\ score2 (win_check g) = score2 g.
Proof. unfold win_check. destruct (_ || _); cbn; auto 7. Qed.

Lemma win_check_over g :
  game_over (win_check g) = (5 <=? score1 g) || (5 <=? score2 g) || game_over g.
Proof. unfold win_check. destruct (_ || _); reflexivity. Qed.

(** ** The paddles stay on the field *)

Ltac bool_hyps :=
  repeat match goal with
  | H : _ && _ = true |- _ => apply andb_prop in H; destruct H
  | H : (_ <? _) = true |- _ => apply Z.ltb_lt in H
  | H : (_ <=? _) = true |- _ => apply Z.leb_le in H
  | H : (_ <? _) = false |- _ => apply Z.ltb_ge in H
  | H : (_ <=? _) = false |- _ => apply Z.leb_gt in H
  end.

Lemma step_up_on_grid p :
  on_grid p -> in_field p -> 0 < Rect.top p ->
  on_grid (Rect.set_y (Rect.y p - PADDLE_SPEED) p) /\
  in_field (Rect.set_y (Rect.y p - PADDLE_SPEED) p).
Proof.
  unfold on_grid, in_field, Rect.top, Rect.bottom. cbn. consts.
  intros [Hh Hm] [H0 H1] Hpos.
  replace (Rect.y p - 3) with (Rect.y p + (-1) * 3) by ring.
  rewrite Z.mod_add by lia.
  repeat split; try assumption; try lia.
  apply Z.mod_divide in Hm; [|lia]. destruct Hm as [q Hq]. lia.
Qed.

Lemma step_down_on_grid p :
  on_grid p -> in_field p -> Rect.bottom p < HEIGHT ->
  on_grid (Rect.set_y (Rect.y p + PADDLE_SPEED) p) /\
  in_field (Rect.set_y (Rect.y p + PADDLE_SPEED) p).
Proof.
  unfold on_grid, in_field, Rect.top, Rect.bottom. cbn. consts.
  intros [Hh Hm] [H0 H1] Hlow.
  replace (Rect.y p + 3) with (Rect.y p + 1 * 3) by ring.
  rewrite Z.mod_add by lia.
  repeat split; try assumption; try lia.
  apply Z.mod_divide in Hm; [|lia]. destruct Hm as [q Hq]. lia.
Qed.

Lemma key_move_on_grid up down p :
  on_grid p -> in_field p ->
  on_grid (key_move up down p) /\ in_field (key_move up down p).
Proof.
  intros Hg Hf. unfold key_move. cbv zeta.
  destruct (up && (0 <? Rect.top p)) eqn:Eu.
  - bool_hyps. destruct (step_up_on_grid p Hg Hf) as [Hg' Hf']; [assumption|].
    match goal with |- context [down && ?c] => destruct (down && c) eqn:Ed end;
      [|auto].
    bool_hyps. apply step_down_on_grid; assumption.
  - destruct (down && (Rect.bottom p <? HEIGHT)) eqn:Ed; [|auto].
    bool_hyps. apply step_down_on_grid; assumption.
Qed.

Lemma ai_move_on_grid b p :
  on_grid p -> in_field p ->
  on_grid (ai_move b p) /\ in_field (ai_move b p).
Proof.
  intros Hg Hf. unfold ai_move. cbv zeta.
  destruct ((Rect.centery p + 30 <? Rect.centery b) && (Rect.bottom p <? HEIGHT))
    eqn:Ed.
  - bool_hyps. destruct (step_down_on_grid p Hg Hf) as [Hg' Hf']; [assumption|].
    match goal with |- context [?c && (0 <? ?t)] => destruct (c && (0 <? t)) eqn:Eu end;
      [|auto].
    bool_hyps. apply step_up_on_grid; assumption.
  - destruct ((Rect.centery b <? Rect.centery p - 30) && (0 <? Rect.top p)) eqn:Eu;
      [|auto].
    bool_hyps. apply step_up_on_grid; assumption.
Qed.

Lemma after_moves_on_grid keys now g :
  paddles_on_grid g -> paddles_in_field g ->
  paddles_on_grid (after_moves keys now g) /\
  paddles_in_field (after_moves keys now g).
Proof.
  intros [Hg1 Hg2] [Hf1 Hf2]. unfold paddles_on_grid, paddles_in_field.
  rewrite after_moves_paddle1, after_moves_paddle2.
  destruct (key_move_on_grid (K_w keys) (K_s keys) _ Hg1 Hf1).
  destruct (key_move_on_grid (K_UP keys) (K_DOWN keys) _ Hg2 Hf2).
  destruct (ai_move_on_grid (ball g) _ Hg2 Hf2).
  destruct (negb (ai_active g)); auto.
Qed.

(** After the paddle phase nothing touches the paddles. *)
Lemma tick_paddles keys now g :
  paddle1 (fst (tick keys now g)) = paddle1 (after_moves keys now g) /\
  paddle2 (fst (tick keys now g)) = paddle2 (after_moves keys now g).
Proof.
  rewrite tick_fst.
  destruct (win_check_rest
    (fst (score_right (fst (score_left (bounced keys now g)))))) as (-> & -> & _).
  destruct (bounced_rest keys now g) as (H1 & H2 & _). cbv zeta in *.
  destruct (advanced_rest keys now g) as (A1 & A2 & _).
  rewrite <- A1, <- A2, <- H1, <- H2.
  generalize (bounced keys now g). intros b.
  unfold score_left, score_right.
  destruct (past_left b); cbn [fst];
    match goal with |- context [past_right ?s] => destruct (past_right s) end;
    cbn; auto.
Qed.

(** ** The invariant of the reachable states *)

Record steady (g : Game) : Prop := {
  steady_shape : shaped g;
  steady_speed : unit_speed (ball_speed g);
  steady_field : paddles_in_field g;
  steady_grid : paddles_on_grid g;
  steady_over : over_iff_won g
}.

Lemma scoring_keeps_over b :
  game_over (fst (score_right (fst (score_left b)))) = game_over b.
Proof.
  unfold score_left, score_right.
  destruct (past_left b); cbn [fst];
    match goal with |- context [past_right ?s] => destruct (past_right s) end;
    reflexivity.
Qed.

Lemma tick_over keys now g :
  game_over g = false -> over_iff_won (fst (tick keys now g)).
Proof.
  intros Hplay. rewrite tick_fst. unfold over_iff_won.
  set (s := fst (score_right (fst (score_left (bounced keys now g))))).
  assert (Hs : game_over s = false).
  { unfold s. rewrite scoring_keeps_over.
    destruct (bounced_rest keys now g) as (_ & _ & _ & _ & _ & ->). exact Hplay. }
  rewrite win_check_over, Hs, orb_false_r.
  destruct (win_check_rest s) as (_ & _ & _ & _ & -> & ->).
  rewrite orb_true_iff, !Z.leb_le. reflexivity.
Qed.

Lemma tick_shaped keys now g : shaped g -> shaped (fst (tick keys now g)).
Proof.
  intros [(X1 & W1 & H1) (X2 & W2 & H2) (Wb & Hb)].
  destruct (tick_paddles keys now g) as [P1 P2].
  split.
  - rewrite P1, after_moves_paddle1.
    destruct (key_move_size (K_w keys) (K_s keys) (paddle1 g)) as (-> & -> & ->).
    auto.
  - rewrite P2, after_moves_paddle2.
    destruct (key_move_size (K_UP keys) (K_DOWN keys) (paddle2 g)) as (E1 & E2 & E3).
    destruct (ai_move_size (ball g) (paddle2 g)) as (F1 & F2 & F3).
    destruct (negb (ai_active g)); rewrite ?E1, ?E2, ?E3, ?F1, ?F2, ?F3; auto.
  - destruct (bounced_rest keys now g) as (_ & _ & B & _). cbv zeta in B.
    rewrite advanced_ball in B.
    destruct (tick_outcomes keys now g Wb);
      match goal with |- context [win_check ?s] =>
        destruct (win_check_rest s) as (_ & _ & -> & _) end;
      cbn; rewrite B; cbn; auto.
Qed.

Lemma tick_unit_speed keys now g :
  Rect.w (ball g) = BALL_SIZE ->
  unit_speed (ball_speed g) -> unit_speed (ball_speed (fst (tick keys now g))).
Proof.
  intros Wb [Hx Hy].
  destruct (tick_outcomes keys now g Wb);
    match goal with |- context [win_check ?s] =>
      destruct (win_check_rest s) as (_ & _ & _ & -> & _) end.
  - split; cbn; auto.
  - split; cbn; auto.
  - rewrite bounced_speed. unfold unit_speed. cbn [fst snd]. consts.
    destruct (hits_paddle _), (hits_wall _); lia.
Qed.

Lemma tick_steady keys now g :
  steady g -> effective now g -> steady (fst (tick keys now g)).
Proof.
  intros [Hsh Hsp Hf Hg Ho] [Hplay _].
  destruct (after_moves_on_grid keys now g Hg Hf) as [Hg' Hf'].
  destruct (tick_paddles keys now g) as [P1 P2].
  split.
  - apply tick_shaped, Hsh.
  - apply tick_unit_speed; [apply Hsh | exact Hsp].
  - unfold paddles_in_field. rewrite P1, P2. exact Hf'.
  - unfold paddles_on_grid. rewrite P1, P2. exact Hg'.
  - apply tick_over, Hplay.
Qed.

Lemma reset_steady g : steady (reset g).
Proof.
  split.
  - split; cbn; auto.
  - split; cbn; auto.
  - split; split; cbn; discriminate.
  - split; split; reflexivity.
  - split; cbn; [discriminate | intros [H | H]; exfalso; apply H; reflexivity].
Qed.

(** The invariant does not read [ai_active], [last_update] or
    [insert_coin]. *)
Lemma steady_flags g ai lu coin :
  steady g ->
  steady (mkGame (paddle1 g) (paddle2 g) (ball g) (ball_speed g)
                 (score1 g) (score2 g) ai lu coin (game_over g)).
Proof.
  intros [[S1 S2 S3] Hsp Hf Hg Ho]. repeat split; try assumption;
    first [apply S1 | apply S2 | apply S3 | apply Hsp | apply Hf | apply Hg
          | apply Ho].
Qed.

Lemma reachable_steady g : reachable g -> steady g.
Proof.
  apply reachable_ind_ops.
  - intros now. exact (steady_flags _ true now true (reset_steady unset)).
  - intros g0 _. apply reset_steady.
  - intros b g0 H. exact (steady_flags _ b _ _ H).
  - intros g0 H. exact (steady_flags _ _ _ false H).
  - intros keys now g0. apply tick_steady.
Qed.

(** ** Concrete plays *)

(** A fresh game left alone, the AI on paddle two: after 904 effective
    updates the score is 3 - 4 and the ball is about to leave on the left. *)
Definition match_point : Game := run no_keys 904 (new_game 0).

Lemma match_point_reachable : reachable match_point.
Proof. apply reachable_run, reach_new. Defined.

(** A fresh game switched to two players (key 2) and left alone: after 156
    effective updates the ball, moving up and to the left, is 3 units from
    the left boundary, far above paddle one. *)
Definition lost_ball : Game :=
  mkGame (Rect.mk 50 210 10 60) (Rect.mk 580 210 10 60) (Rect.mk 3 395 10 10)
         (-4, -4) 1 0 false 4992 false false.

Lemma lost_ball_reachable : reachable lost_ball.
Proof.
  change lost_ball with
    (run no_keys 156 (fst (handle_event (KEYDOWN K_2) (new_game 0, true)))).
  apply reachable_run, reach_event, reach_new.
Defined.

(** ** The match-concluded flag *)

(** C1. In every reachable state [game_over] is true exactly when one of the
    scores is at least 5; and an update that takes a score from below 5 to
    5 or more leaves [game_over] true when it returns. *)
Theorem game_over_iff_won g :
  reachable g ->
  (game_over g = true <-> (5 <= score1 g \/ 5 <= score2 g)) /\
  (forall keys now,
     score1 g < 5 -> score2 g < 5 ->
     let g' := fst (update keys now g) in
     5 <= score1 g' \/ 5 <= score2 g' -> game_over g' = true).
Proof.
  intros Hg. split.
  - apply (steady_over g (reachable_steady g Hg)).
  - intros keys now _ _ g' Hwon.
    apply (steady_over g' (reachable_steady g' (reach_update keys now g Hg))).
    exact Hwon.
Qed.

Lemma game_over_iff_won_witness :
  reachable match_point /\
  score2 match_point = 4 /\
  score2 (fst (update no_keys 28960 match_point)) = 5 /\
  game_over (fst (update no_keys 28960 match_point)) = true.
Proof.
  split; [exact match_point_reachable|].
  split; [vm_compute; reflexivity|].
  assert (H5 : score2 (fst (update no_keys 28960 match_point)) = 5)
    by (vm_compute; reflexivity).
  split; [exact H5|].
  apply (proj2 (game_over_iff_won match_point match_point_reachable)
               no_keys 28960).
  - vm_compute; reflexivity.
  - vm_compute; reflexivity.
  - right. rewrite H5. lia.
Defined.

(** C2. When [game_over] is true, [update] returns the state it was given,
    every field as it was, and plays nothing. *)
Theorem update_noop_when_over keys now g :
  game_over g = true -> update keys now g = (g, []).
Proof.
  intros Hover. unfold update. rewrite Hover. reflexivity.
Qed.

Definition concluded : Game :=
  mkGame (Rect.mk 50 210 10 60) (Rect.mk 580 330 10 60) (Rect.mk 315 235 10 10)
         (4, 4) 3 5 true 28960 true true.

Lemma update_noop_witness :
  game_over concluded = true /\
  update (mkKeys true false false true) 29000 concluded = (concluded, []).
Proof.
  split; [reflexivity|].
  apply (update_noop_when_over (mkKeys true false false true) 29000 concluded).
  reflexivity.
Defined.

(** ** Reset *)

(** The serve after a point puts the centre of the ball on the centre of the
    field, whatever the size of the ball. *)
Lemma serve_centres_ball vx g :
  Rect.center (ball (serve vx g)) = (WIDTH / 2, HEIGHT / 2).
Proof.
  unfold serve, Rect.center, Rect.centerx, Rect.centery.
  cbn [ball with_ball with_ball_speed Rect.set_center Rect.x Rect.y Rect.w Rect.h
       fst snd].
  f_equal; lia.
Qed.

(** C3. [reset] zeroes both scores, centres both paddles vertically and
    clears [game_over]; the ball, however, is built with its top-left corner
    on the centre of the field, so that its centre lies half a ball to the
    right of and below the centre of the field, at (325, 245) and not at
    (320, 240). *)
Theorem reset_ball_off_centre g :
  let g' := reset g in
  score1 g' = 0 /\ score2 g' = 0 /\
  Rect.centery (paddle1 g') = HEIGHT / 2 /\
  Rect.centery (paddle2 g') = HEIGHT / 2 /\
  game_over g' = false /\
  Rect.center (ball g') = (WIDTH / 2 + BALL_SIZE / 2, HEIGHT / 2 + BALL_SIZE / 2) /\
  Rect.center (ball g') <> (WIDTH / 2, HEIGHT / 2).
Proof.
  cbv zeta. repeat split. cbn. discriminate.
Qed.

(** ** Paddle movement *)

(** Paddle one two thirds of a step below the top of the field. *)
Definition off_grid : Game :=
  mkGame (Rect.mk 50 1 10 60) (Rect.mk 580 210 10 60) (Rect.mk 320 240 10 10)
         (4, 4) 0 0 true 0 false false.

Definition w_held : Keys := mkKeys true false false false.

(** The guard on a move is not a clamp: a paddle within the field but less
    than a step from its top would be moved a whole step, past the top.  This
    takes a paddle off the grid of the steps, which the program never has. *)
Lemma guard_is_not_a_clamp :
  effective 32 off_grid /\ paddles_in_field off_grid /\
  Rect.top (paddle1 (after_moves w_held 32 off_grid)) = -2 /\
  ~ paddles_in_field (after_moves w_held 32 off_grid).
Proof.
  split; [split; [reflexivity | cbn; consts; lia]|].
  split; [split; split; cbn; consts; lia|].
  split; [reflexivity|].
  intros [[H _] _]. cbn in H. consts. lia.
Qed.

(** In an effective update from a state in which both paddles have the
    height [PADDLE_HEIGHT], lie within the vertical bounds of the field and
    have their tops at a multiple of [PADDLE_SPEED], both paddles lie within
    those bounds after the paddle phase, and so they do when [update]
    returns. *)
Lemma on_grid_paddles_stay_in_field keys now g :
  effective now g ->
  paddles_on_grid g ->
  paddles_in_field g ->
  paddles_in_field (after_moves keys now g) /\
  paddles_in_field (fst (update keys now g)).
Proof.
  intros Heff Hgrid Hfield.
  destruct (after_moves_on_grid keys now g Hgrid Hfield) as [_ Hf].
  split; [exact Hf|].
  rewrite (update_effective keys now g Heff).
  destruct (tick_paddles keys now g) as [P1 P2].
  unfold paddles_in_field. rewrite P1, P2. exact Hf.
Qed.

(** Paddle one a step below the top of the field, paddle two at the bottom. *)
Definition at_edges : Game :=
  mkGame (Rect.mk 50 3 10 60) (Rect.mk 580 420 10 60) (Rect.mk 320 240 10 10)
         (4, 4) 0 0 false 0 false false.

Lemma at_edges_paddles_stay_in_field :
  paddles_in_field (after_moves (mkKeys true false false true) 32 at_edges) /\
  paddles_in_field (fst (update (mkKeys true false false true) 32 at_edges)).
Proof.
  apply (on_grid_paddles_stay_in_field (mkKeys true false false true) 32 at_edges).
  - split; [reflexivity | cbn; consts; lia].
  - split; split; reflexivity.
  - split; split; cbn; consts; lia.
Defined.

(** In the states the program reaches the paddles are on the grid of the
    steps and within the field. *)
Lemma reachable_paddles_in_field g :
  reachable g -> paddles_on_grid g /\ paddles_in_field g.
Proof.
  intros Hg. destruct (reachable_steady g Hg). auto.
Qed.

Lemma off_grid_unreachable : ~ reachable off_grid.
Proof.
  intros Hg. destruct (reachable_paddles_in_field off_grid Hg) as [[[_ Hm] _] _].
  cbn in Hm. discriminate Hm.
Qed.

(** C4. In every effective update the program makes, from a state in which
    both paddle rectangles lie within the vertical bounds of the field
    ([0 <= top] and [bottom <= HEIGHT]), both paddle rectangles still lie
    within those bounds after the paddle phase --
    keyboard for paddle one, keyboard or AI for paddle two -- and when
    [update] returns. *)
Theorem paddles_clamped keys now g :
  reachable g ->
  effective now g ->
  paddles_in_field g ->
  paddles_in_field (after_moves keys now g) /\
  paddles_in_field (fst (update keys now g)).
Proof.
  intros Hg Heff Hfield.
  destruct (reachable_paddles_in_field g Hg) as [Hgrid _].
  exact (on_grid_paddles_stay_in_field keys now g Heff Hgrid Hfield).
Qed.

(** A fresh game in which W is held for 70 updates: paddle one is at the top
    of the field, and W is still held. *)
Definition at_the_top : Game := run w_held 70 (new_game 0).

Lemma paddles_clamped_witness :
  Rect.top (paddle1 at_the_top) = 0 /\
  paddles_in_field (after_moves w_held 2272 at_the_top) /\
  paddles_in_field (fst (update w_held 2272 at_the_top)).
Proof.
  split; [vm_compute; reflexivity|].
  apply (paddles_clamped w_held 2272 at_the_top).
  - apply reachable_run, reach_new.
  - split; vm_compute; [reflexivity | discriminate].
  - vm_compute. repeat split; discriminate.
Defined.

(** ** Bounces *)

(** The net effect of an update on the velocity, by outcome. *)
Lemma tick_speed keys now g :
  Rect.w (ball g) = BALL_SIZE ->
  let a := advanced keys now g in
  ball_speed (fst (tick keys now g)) =
  if past_left a then (BALL_SPEED, BALL_SPEED)
  else if past_right a then (- BALL_SPEED, BALL_SPEED)
  else ((if hits_paddle a then - fst (ball_speed g) else fst (ball_speed g)),
        (if hits_wall a then - snd (ball_speed g) else snd (ball_speed g))).
Proof.
  intros Wb. cbv zeta.
  destruct (tick_outcomes keys now g Wb) as [L | L R | L R];
    match goal with |- context [win_check ?s] =>
      destruct (win_check_rest s) as (_ & _ & _ & -> & _) end;
    rewrite L, ?R; [reflexivity | reflexivity | apply bounced_speed].
Qed.

(** A ball that overlaps a paddle is past neither boundary: the paddles
    stand 50 units inside the field. *)
Lemma hits_paddle_in_play g :
  shaped g -> hits_paddle g = true -> past_left g = false /\ past_right g = false.
Proof.
  intros [(X1 & W1 & H1) (X2 & W2 & H2) (Wb & Hb)].
  unfold hits_paddle, past_left, past_right, Rect.colliderect, Rect.left, Rect.right.
  rewrite X1, W1, H1, X2, W2, H2, Wb, Hb. consts. cbn [Z.eqb orb].
  intros Hhit. apply orb_prop in Hhit.
  rewrite Z.leb_gt, Z.leb_gt.
  destruct Hhit as [Hhit | Hhit];
    apply andb_prop in Hhit; destruct Hhit as [Hhit _];
    apply andb_prop in Hhit; destruct Hhit as [Hhit Hc];
    apply andb_prop in Hhit; destruct Hhit as [Ha _];
    apply Z.ltb_lt in Ha, Hc; lia.
Qed.

Lemma advanced_shaped keys now g : shaped g -> shaped (advanced keys now g).
Proof.
  intros Hs. pose proof (tick_shaped keys now g Hs) as [S1 S2 _].
  destruct (tick_paddles keys now g) as [P1 P2].
  destruct (advanced_rest keys now g) as (A1 & A2 & _).
  destruct Hs as [_ _ Sb].
  split.
  - rewrite A1, <- P1. exact S1.
  - rewrite A2, <- P2. exact S2.
  - rewrite advanced_ball. exact Sb.
Qed.

(** C5, as stated, fails: the ball leaves on the left, far from both
    paddles, and the serve turns the horizontal velocity from -4 to +4. *)
Lemma hflip_counterexample :
  reachable lost_ball /\ effective 5024 lost_ball /\
  hits_paddle (advanced no_keys 5024 lost_ball) = false /\
  fst (ball_speed (fst (update no_keys 5024 lost_ball)))
    = - fst (ball_speed lost_ball) /\
  ~ (fst (ball_speed (fst (update no_keys 5024 lost_ball)))
       = - fst (ball_speed lost_ball)
     <-> hits_paddle (advanced no_keys 5024 lost_ball) = true).
Proof.
  split; [exact lost_ball_reachable|].
  split; [split; [reflexivity | cbn; lia]|].
  split; [reflexivity|].
  split; [reflexivity|].
  intros [H _]. specialize (H eq_refl). discriminate H.
Qed.

(** C5, amended. In every effective update of a reachable state the
    horizontal velocity is negated whenever the advanced ball overlaps a
    paddle; and when the advanced ball is past neither the left nor the right
    boundary, it is negated only if the ball overlaps a paddle. *)
Theorem hflip_iff_paddle_hit keys now g :
  reachable g -> effective now g ->
  let a := advanced keys now g in
  let vx' := fst (ball_speed (fst (update keys now g))) in
  (hits_paddle a = true -> vx' = - fst (ball_speed g)) /\
  (past_left a = false -> past_right a = false ->
   (vx' = - fst (ball_speed g) <-> hits_paddle a = true)).
Proof.
  intros Hg Heff. cbv zeta.
  destruct (reachable_steady g Hg) as [Hsh [Hvx _] _ _ _].
  rewrite (update_effective keys now g Heff).
  rewrite (tick_speed keys now g) by apply Hsh. cbv zeta.
  split.
  - intros Hhit.
    destruct (hits_paddle_in_play _ (advanced_shaped keys now g Hsh) Hhit)
      as [-> ->].
    rewrite Hhit. reflexivity.
  - intros -> ->. cbn [fst]. consts.
    destruct (hits_paddle (advanced keys now g)); split; intros H;
      try reflexivity; try discriminate; lia.
Qed.

(** A fresh game left alone: at its 66th update the ball runs into paddle
    two, which the AI has brought down to it. *)
Definition at_paddle : Game := run no_keys 65 (new_game 0).

Lemma hflip_iff_paddle_hit_witness :
  hits_paddle (advanced no_keys 2112 at_paddle) = true /\
  fst (ball_speed (fst (update no_keys 2112 at_paddle)))
    = - fst (ball_speed at_paddle).
Proof.
  assert (Hhit : hits_paddle (advanced no_keys 2112 at_paddle) = true)
    by (vm_compute; reflexivity).
  split; [exact Hhit|].
  refine (proj1 (hflip_iff_paddle_hit no_keys 2112 at_paddle _ _) Hhit).
  - apply reachable_run, reach_new.
  - split; vm_compute; [reflexivity | discriminate].
Defined.

(** C6, as stated, fails: in the same update the ball is nowhere near the
    top or the bottom of the field, and the serve turns the vertical
    velocity from -4 to +4. *)
Lemma vflip_counterexample :
  reachable lost_ball /\ effective 5024 lost_ball /\
  hits_wall (advanced no_keys 5024 lost_ball) = false /\
  snd (ball_speed (fst (update no_keys 5024 lost_ball)))
    = - snd (ball_speed lost_ball) /\
  ~ (snd (ball_speed (fst (update no_keys 5024 lost_ball)))
       = - snd (ball_speed lost_ball)
     <-> hits_wall (advanced no_keys 5024 lost_ball) = true).
Proof.
  split; [exact lost_ball_reachable|].
  split; [split; [reflexivity | cbn; lia]|].
  split; [reflexivity|].
  split; [reflexivity|].
  intros [H _]. specialize (H eq_refl). discriminate H.
Qed.

(** C6, amended. In every effective update of a reachable state in which
    the advanced ball is past neither the left nor the right boundary, the
    vertical velocity is negated if and only if the advanced ball's top is at
    or above 0 or its bottom at or below [HEIGHT]. *)
Theorem vflip_iff_wall_hit keys now g :
  reachable g -> effective now g ->
  let a := advanced keys now g in
  past_left a = false -> past_right a = false ->
  (snd (ball_speed (fst (update keys now g))) = - snd (ball_speed g)
   <-> (Rect.top (ball a) <= 0 \/ HEIGHT <= Rect.bottom (ball a))).
Proof.
  intros Hg Heff. cbv zeta.
  destruct (reachable_steady g Hg) as [Hsh [_ Hvy] _ _ _].
  rewrite (update_effective keys now g Heff).
  rewrite (tick_speed keys now g) by apply Hsh. cbv zeta.
  intros -> ->. cbn [snd].
  assert (Hw : hits_wall (advanced keys now g) = true <->
               (Rect.top (ball (advanced keys now g)) <= 0 \/
                HEIGHT <= Rect.bottom (ball (advanced keys now g)))).
  { unfold hits_wall. rewrite orb_true_iff, !Z.leb_le. reflexivity. }
  rewrite <- Hw. consts.
  destruct (hits_wall (advanced keys now g)); split; intros H;
    try reflexivity; try discriminate; lia.
Qed.

(** A fresh game left alone: at its 58th update the ball reaches the bottom
    of the field. *)
Definition at_wall : Game := run no_keys 57 (new_game 0).

Lemma vflip_iff_wall_hit_witness :
  HEIGHT <= Rect.bottom (ball (advanced no_keys 1856 at_wall)) /\
  snd (ball_speed (fst (update no_keys 1856 at_wall)))
    = - snd (ball_speed at_wall).
Proof.
  assert (Hlow : HEIGHT <= Rect.bottom (ball (advanced no_keys 1856 at_wall)))
    by (vm_compute; discriminate).
  split; [exact Hlow|].
  apply (vflip_iff_wall_hit no_keys 1856 at_wall).
  - apply reachable_run, reach_new.
  - split; vm_compute; [reflexivity | discriminate].
  - vm_compute; reflexivity.
  - vm_compute; reflexivity.
  - right. exact Hlow.
Defined.

(** ** Scoring *)

(** The state an update returns after a serve, field by field. *)
Lemma served_fields vx s :
  let g' := win_check (serve vx s) in
  paddle1 g' = paddle1 s /\ paddle2 g' = paddle2 s /\
  Rect.center (ball g') = (WIDTH / 2, HEIGHT / 2) /\
  ball_speed g' = (vx, BALL_SPEED) /\
  score1 g' = score1 s /\ score2 g' = score2 s.
Proof.
  cbv zeta.
  destruct (win_check_rest (serve vx s)) as (-> & -> & -> & -> & -> & ->).
  rewrite serve_centres_ball. repeat split.
Qed.

Lemma toward_right vx b p :
  0 < vx -> Rect.centerx b < Rect.centerx p -> toward vx b p.
Proof. unfold toward. nia. Qed.

Lemma toward_left vx b p :
  vx < 0 -> Rect.centerx p < Rect.centerx b -> toward vx b p.
Proof. unfold toward. nia. Qed.

Lemma tick_left keys now g :
  Rect.w (ball g) = BALL_SIZE ->
  past_left (advanced keys now g) = true ->
  fst (tick keys now g) =
  win_check (serve BALL_SPEED (with_score2 (score2 g + 1) (bounced keys now g))).
Proof.
  intros Wb HL.
  destruct (tick_outcomes keys now g Wb) as [L | L R | L R];
    [reflexivity | rewrite HL in L; discriminate L
                 | rewrite HL in L; discriminate L].
Qed.

Lemma tick_right keys now g :
  Rect.w (ball g) = BALL_SIZE ->
  past_right (advanced keys now g) = true ->
  fst (tick keys now g) =
  win_check (serve (- BALL_SPEED) (with_score1 (score1 g + 1) (bounced keys now g))).
Proof.
  intros Wb HR.
  assert (Wa : Rect.w (ball (advanced keys now g)) = BALL_SIZE)
    by (rewrite advanced_ball; exact Wb).
  pose proof (past_right_not_left _ Wa HR) as HL.
  destruct (tick_outcomes keys now g Wb) as [L | L R | L R];
    [rewrite HL in L; discriminate L | reflexivity
    | rewrite HR in R; discriminate R].
Qed.

(** C7, as stated, fails in its last clause: the ball leaves on the left,
    the right player (paddle two) scores, and the ball is served to the
    right, toward paddle two and away from paddle one, whose player did not
    score. *)
Lemma serve_direction_counterexample :
  reachable lost_ball /\ effective 5024 lost_ball /\
  past_left (advanced no_keys 5024 lost_ball) = true /\
  let g' := fst (update no_keys 5024 lost_ball) in
  score2 g' = score2 lost_ball + 1 /\
  ball_speed g' = (BALL_SPEED, BALL_SPEED) /\
  toward (fst (ball_speed g')) (ball g') (paddle2 g') /\
  ~ toward (fst (ball_speed g')) (ball g') (paddle1 g').
Proof.
  split; [exact lost_ball_reachable|].
  split; [split; [reflexivity | cbn; lia]|].
  split; [reflexivity|].
  cbv zeta. split; [reflexivity|]. split; [reflexivity|].
  split; [reflexivity|].
  vm_compute. discriminate.
Qed.

(** C7, amended. In every effective update of a reachable state in which
    the advanced ball's left edge is at or past the left boundary, [score2]
    grows by 1, [score1] is unchanged, the ball's centre is put on the centre
    of the field and the velocity becomes (+BALL_SPEED, BALL_SPEED), which
    points toward paddle two, the side of the player who just scored;
    symmetrically on the right, where [score1] grows by 1 and the velocity
    becomes (-BALL_SPEED, BALL_SPEED), toward paddle one. *)
Theorem score_event keys now g :
  reachable g -> effective now g ->
  let a := advanced keys now g in
  let g' := fst (update keys now g) in
  (past_left a = true ->
     score2 g' = score2 g + 1 /\ score1 g' = score1 g /\
     Rect.center (ball g') = (WIDTH / 2, HEIGHT / 2) /\
     ball_speed g' = (BALL_SPEED, BALL_SPEED) /\
     toward (fst (ball_speed g')) (ball g') (paddle2 g')) /\
  (past_right a = true ->
     score1 g' = score1 g + 1 /\ score2 g' = score2 g /\
     Rect.center (ball g') = (WIDTH / 2, HEIGHT / 2) /\
     ball_speed g' = (- BALL_SPEED, BALL_SPEED) /\
     toward (fst (ball_speed g')) (ball g') (paddle1 g')).
Proof.
  intros Hg Heff. cbv zeta.
  destruct (reachable_steady g Hg) as [Hsh _ _ _ _].
  pose proof (tick_shaped keys now g Hsh) as [(X1 & W1 & _) (X2 & W2 & _) _].
  destruct Hsh as [_ _ [Wb _]].
  destruct (bounced_rest keys now g) as (_ & _ & _ & B1 & B2 & _).
  rewrite (update_effective keys now g Heff).
  split; intros Hpast.
  - rewrite (tick_left keys now g Wb Hpast) in *.
    revert X1 W1 X2 W2 B1 B2. generalize (bounced keys now g).
    intros b X1 W1 X2 W2 B1 B2.
    destruct (served_fields BALL_SPEED (with_score2 (score2 g + 1) b))
      as (_ & _ & Hc & Hv & S1 & S2).
    cbv zeta in Hc, Hv, S1, S2.
    split; [rewrite S2; reflexivity|].
    split; [rewrite S1; exact B1|].
    split; [exact Hc|].
    split; [exact Hv|].
    rewrite Hv. apply toward_right; [reflexivity|].
    pose proof (f_equal fst Hc) as Hcx. cbn [fst Rect.center] in Hcx.
    rewrite Hcx.
    unfold Rect.centerx. rewrite X2, W2. reflexivity.
  - rewrite (tick_right keys now g Wb Hpast) in *.
    revert X1 W1 X2 W2 B1 B2. generalize (bounced keys now g).
    intros b X1 W1 X2 W2 B1 B2.
    destruct (served_fields (- BALL_SPEED) (with_score1 (score1 g + 1) b))
      as (_ & _ & Hc & Hv & S1 & S2).
    cbv zeta in Hc, Hv, S1, S2.
    split; [rewrite S1; reflexivity|].
    split; [rewrite S2; exact B2|].
    split; [exact Hc|].
    split; [exact Hv|].
    rewrite Hv. apply toward_left; [reflexivity|].
    pose proof (f_equal fst Hc) as Hcx. cbn [fst Rect.center] in Hcx.
    rewrite Hcx.
    unfold Rect.centerx. rewrite X1, W1. reflexivity.
Qed.

(** A fresh game left alone: its 96th update sees the ball leave on the
    right. *)
Definition leaving_right : Game := run no_keys 95 (new_game 0).

Lemma score_event_witness :
  (score2 (fst (update no_keys 5024 lost_ball)) = score2 lost_ball + 1 /\
   ball_speed (fst (update no_keys 5024 lost_ball)) = (BALL_SPEED, BALL_SPEED)) /\
  (score1 (fst (update no_keys 3072 leaving_right)) = score1 leaving_right + 1 /\
   ball_speed (fst (update no_keys 3072 leaving_right)) = (- BALL_SPEED, BALL_SPEED)).
Proof.
  split.
  - assert (Heff : effective 5024 lost_ball)
      by (split; vm_compute; [reflexivity | discriminate]).
    assert (Hpast : past_left (advanced no_keys 5024 lost_ball) = true)
      by (vm_compute; reflexivity).
    pose proof (proj1 (score_event no_keys 5024 lost_ball lost_ball_reachable Heff)
                      Hpast) as (H2 & _ & _ & Hv & _).
    exact (conj H2 Hv).
  - assert (Hr : reachable leaving_right) by apply reachable_run, reach_new.
    assert (Heff : effective 3072 leaving_right)
      by (split; vm_compute; [reflexivity | discriminate]).
    assert (Hpast : past_right (advanced no_keys 3072 leaving_right) = true)
      by (vm_compute; reflexivity).
    pose proof (proj2 (score_event no_keys 3072 leaving_right Hr Heff) Hpast)
      as (H1 & _ & _ & Hv & _).
    exact (conj H1 Hv).
Defined.

(** ** The AI paddle *)

(** What the AI block does to paddle two, by the signed distance [d] from
    the paddle's centre to the ball's. *)
Lemma ai_move_cases b p :
  let d := Rect.centery b - Rect.centery p in
  (ai_move b p = p /\ (Z.abs d <= 30 \/ HEIGHT <= Rect.bottom p \/ Rect.top p <= 0)) \/
  (30 < d /\ Rect.bottom p < HEIGHT /\
   ai_move b p = Rect.set_y (Rect.y p + PADDLE_SPEED) p) \/
  (d < -30 /\ 0 < Rect.top p /\
   ai_move b p = Rect.set_y (Rect.y p - PADDLE_SPEED) p).
Proof.
  cbv zeta. unfold ai_move. cbv zeta.
  destruct ((Rect.centery p + 30 <? Rect.centery b) && (Rect.bottom p <? HEIGHT))
    eqn:Ed.
  - bool_hyps. right. left.
    assert (Eu : (Rect.centery b
                    <? Rect.centery (Rect.set_y (Rect.y p + PADDLE_SPEED) p) - 30)
                 = false).
    { apply Z.ltb_ge. unfold Rect.centery in *. cbn. consts. lia. }
    rewrite Eu. cbn [andb]. repeat split; lia.
  - destruct ((Rect.centery b <? Rect.centery p - 30) && (0 <? Rect.top p)) eqn:Eu.
    + bool_hyps. right. right. repeat split; lia.
    + left. split; [reflexivity|].
      apply andb_false_iff in Ed, Eu.
      destruct Ed as [Ed | Ed], Eu as [Eu | Eu]; bool_hyps; lia.
Qed.

Lemma set_y_moves v p : v <> Rect.y p -> Rect.set_y v p <> p.
Proof.
  intros Hv Heq. apply Hv. exact (f_equal Rect.y Heq).
Qed.

(** C8. In an effective update with the AI enabled, paddle two is either left
    where it is or moved by exactly one step of [PADDLE_SPEED] toward the
    ball's vertical centre, and it is moved only when the centres are more
    than 30 apart: within 30 units the paddle is unchanged by the update. *)
Theorem ai_deadband keys now g :
  effective now g -> ai_active g = true ->
  let d := Rect.centery (ball g) - Rect.centery (paddle2 g) in
  let p := paddle2 g in
  let p' := paddle2 (fst (update keys now g)) in
  (Z.abs d <= 30 -> p' = p) /\
  (p' <> p -> 30 < Z.abs d) /\
  (p' = p \/
   (30 < d /\ p' = Rect.set_y (Rect.y p + PADDLE_SPEED) p) \/
   (d < -30 /\ p' = Rect.set_y (Rect.y p - PADDLE_SPEED) p)).
Proof.
  intros Heff Hai. cbv zeta.
  rewrite (update_effective keys now g Heff).
  destruct (tick_paddles keys now g) as [_ ->].
  rewrite after_moves_paddle2, Hai. cbn [negb].
  destruct (ai_move_cases (ball g) (paddle2 g))
    as [[-> _] | [(Hd & _ & ->) | (Hd & _ & ->)]]; cbv zeta in *.
  - split; [reflexivity|]. split; [intros H; now elim H | now left].
  - split; [lia|]. split; [lia|]. right. left. split; [exact Hd | reflexivity].
  - split; [lia|]. split; [lia|]. right. right. split; [exact Hd | reflexivity].
Qed.

(** A fresh game before its first update: the ball's centre is 5 units
    below that of paddle two. *)
Lemma ai_deadband_witness :
  paddle2 (fst (update no_keys 32 (new_game 0))) = paddle2 (new_game 0).
Proof.
  refine (proj1 (ai_deadband no_keys 32 (new_game 0) _ _) _).
  - split; [reflexivity | cbn; lia].
  - reflexivity.
  - cbn. lia.
Defined.

(** Outside the deadband the AI does move: here the ball is 65 units below
    the paddle's centre and the paddle goes down one step. *)
Lemma ai_tracks_example :
  let g := with_ball (Rect.mk 320 300 10 10) (new_game 0) in
  Rect.y (paddle2 g) = 210 /\
  Rect.y (paddle2 (fst (update no_keys 32 g))) = 213.
Proof. split; reflexivity. Qed.

(** ** The speed of the ball *)

(** C9. In every reachable state each component of the ball's velocity has
    absolute value [BALL_SPEED]: it is [BALL_SPEED] or [- BALL_SPEED]. *)
Theorem ball_speed_unit g :
  reachable g ->
  unit_speed (ball_speed g) /\
  Z.abs (fst (ball_speed g)) = BALL_SPEED /\
  Z.abs (snd (ball_speed g)) = BALL_SPEED.
Proof.
  intros Hg. destruct (reachable_steady g Hg) as [_ Hv _ _ _].
  split; [exact Hv|]. destruct Hv as [Hx Hy]. consts. lia.
Qed.

Lemma ball_speed_unit_witness :
  ball_speed lost_ball = (- BALL_SPEED, - BALL_SPEED) /\
  Z.abs (fst (ball_speed lost_ball)) = BALL_SPEED /\
  Z.abs (snd (ball_speed lost_ball)) = BALL_SPEED.
Proof.
  split; [reflexivity|].
  exact (proj2 (ball_speed_unit lost_ball lost_ball_reachable)).
Defined.

(** ** One point at a time *)

Lemma serve_scores vx s :
  score1 (win_check (serve vx s)) = score1 s /\
  score2 (win_check (serve vx s)) = score2 s.
Proof.
  destruct (served_fields vx s) as (_ & _ & _ & _ & S1 & S2). auto.
Qed.

(** The scores after an effective update, by outcome. *)
Lemma tick_scores keys now g :
  Rect.w (ball g) = BALL_SIZE ->
  let g' := fst (tick keys now g) in
  (score1 g' = score1 g /\ score2 g' = score2 g) \/
  (score1 g' = score1 g + 1 /\ score2 g' = score2 g) \/
  (score1 g' = score1 g /\ score2 g' = score2 g + 1).
Proof.
  intros Wb. cbv zeta.
  destruct (bounced_rest keys now g) as (_ & _ & _ & B1 & B2 & _).
  destruct (tick_outcomes keys now g Wb) as [L | L R | L R].
  - right. right.
    destruct (serve_scores BALL_SPEED
                (with_score2 (score2 g + 1) (bounced keys now g))) as [-> ->].
    split; [exact B1 | reflexivity].
  - right. left.
    destruct (serve_scores (- BALL_SPEED)
                (with_score1 (score1 g + 1) (bounced keys now g))) as [-> ->].
    split; [reflexivity | exact B2].
  - left.
    destruct (win_check_rest (bounced keys now g)) as (_ & _ & _ & _ & -> & ->).
    split; assumption.
Qed.

(** C10. An update of a reachable state changes at most one of the two
    scores, and the one it changes it increases by exactly 1; when the ball
    is served after a point on the left, the served ball is not past the
    right boundary, so that the test for a point on the right fails in the
    same update; and an event of the event loop either resets the game or
    leaves both scores as they are. *)
Theorem one_point_per_update keys now g :
  reachable g ->
  let g' := fst (update keys now g) in
  ((score1 g' = score1 g /\ score2 g' = score2 g) \/
   (score1 g' = score1 g + 1 /\ score2 g' = score2 g) \/
   (score1 g' = score1 g /\ score2 g' = score2 g + 1)) /\
  (past_left (bounced keys now g) = true ->
   past_right (fst (score_left (bounced keys now g))) = false) /\
  (forall e running,
     let g'' := fst (handle_event e (g, running)) in
     g'' = reset g \/ (score1 g'' = score1 g /\ score2 g'' = score2 g)).
Proof.
  intros Hg. cbv zeta.
  destruct (reachable_steady g Hg) as [[_ _ [Wb _]] _ _ _ _].
  split; [|split].
  - destruct (update_cases keys now g) as [-> | [_ ->]].
    + left. split; reflexivity.
    + apply tick_scores, Wb.
  - intros HL. unfold score_left. rewrite HL. cbn [fst].
    apply serve_not_past_right.
    destruct (bounced_rest keys now g) as (_ & _ & Hb & _). cbv zeta in Hb.
    cbn [ball with_score2]. rewrite Hb, advanced_ball. exact Wb.
  - intros e running.
    destruct (handle_event_cases e g running) as [H | [H | [[b H] | H]]];
      cbv zeta in H; rewrite H; [left; reflexivity | right | right | right];
      split; reflexivity.
Qed.

Lemma one_point_per_update_witness :
  score1 (fst (update no_keys 5024 lost_ball)) = score1 lost_ball /\
  score2 (fst (update no_keys 5024 lost_ball)) = score2 lost_ball + 1.
Proof.
  destruct (proj1 (one_point_per_update no_keys 5024 lost_ball lost_ball_reachable))
    as [[_ H] | [[H _] | H]].
  - exfalso. revert H. vm_compute. discriminate.
  - exfalso. revert H. vm_compute. discriminate.
  - exact H.
Defined.

(** * Further properties of [update] *)

(** ** Throttling *)

Lemma tick_last_update keys now g : last_update (fst (tick keys now g)) = now.
Proof.
  rewrite tick_fst. unfold win_check, score_right, score_left.
  set (b := bounced keys now g).
  assert (Hb : last_update b = now).
  { unfold b, bounced, paddle_bounce, wall_bounce, advanced, advance_ball,
      after_moves, move_paddles.
    destruct (hits_wall _); cbn [fst]; destruct (hits_paddle _); cbn [fst];
      cbn; destruct (negb (ai_active g)); reflexivity. }
  destruct (past_left b); cbn [fst];
    match goal with |- context [past_right ?s] => destruct (past_right s) end;
    cbn [fst];
    match goal with |- context [if ?c then _ else _] => destruct c end;
    cbn; exact Hb.
Qed.

(** An effective update stamps the state with the time it ran at, and every
    update that comes less than 32 ms after an effective one changes nothing
    and plays nothing, whatever keys are held. *)
Theorem update_throttled keys keys' now now' g :
  effective now g ->
  now' - now < 32 ->
  let g' := fst (update keys now g) in
  last_update g' = now /\ update keys' now' g' = (g', []).
Proof.
  intros Heff Hsoon. cbv zeta.
  rewrite (update_effective keys now g Heff).
  pose proof (tick_last_update keys now g) as Hlu.
  split; [exact Hlu|].
  unfold update. rewrite Hlu.
  destruct (game_over (fst (tick keys now g))); [reflexivity|].
  destruct (Z.ltb_spec (now' - now) 32); [reflexivity | lia].
Qed.

Lemma update_throttled_witness :
  let g' := fst (update no_keys 32 (new_game 0)) in
  last_update g' = 32 /\ update w_held 63 g' = (g', []).
Proof.
  apply (update_throttled no_keys w_held 32 63 (new_game 0)).
  - split; [reflexivity | cbn; lia].
  - lia.
Defined.

(** ** The ball in play *)

Lemma tick_in_play keys now g :
  past_left (advanced keys now g) = false ->
  past_right (advanced keys now g) = false ->
  fst (tick keys now g) = win_check (bounced keys now g).
Proof.
  intros HL HR. rewrite tick_fst.
  rewrite <- bounced_past_left in HL. rewrite <- bounced_past_right in HR.
  unfold score_left. rewrite HL. cbn [fst].
  unfold score_right. rewrite HR. reflexivity.
Qed.

(** In an effective update in which the advanced ball is past neither the
    left nor the right boundary, the ball ends up exactly one velocity vector
    away from where it was, with its size unchanged: the bounces off walls and
    paddles change the velocity and never the position. *)
Theorem ball_advances keys now g :
  effective now g ->
  past_left (advanced keys now g) = false ->
  past_right (advanced keys now g) = false ->
  ball (fst (update keys now g)) =
  Rect.mk (Rect.x (ball g) + fst (ball_speed g))
          (Rect.y (ball g) + snd (ball_speed g))
          (Rect.w (ball g)) (Rect.h (ball g)).
Proof.
  intros Heff HL HR.
  rewrite (update_effective keys now g Heff), (tick_in_play keys now g HL HR).
  destruct (win_check_rest (bounced keys now g)) as (_ & _ & -> & _).
  destruct (bounced_rest keys now g) as (_ & _ & Hb & _). cbv zeta in Hb.
  rewrite Hb. apply advanced_ball.
Qed.

Lemma ball_advances_witness :
  ball (fst (update no_keys 1856 at_wall)) = Rect.mk 552 472 10 10.
Proof.
  apply (ball_advances no_keys 1856 at_wall).
  - split; vm_compute; [reflexivity | discriminate].
  - vm_compute; reflexivity.
  - vm_compute; reflexivity.
Defined.

(** ** Sounds *)

Lemma and_then_fst m f : fst (m >>> f) = fst (f (fst m)).
Proof. destruct m as [g s]. unfold and_then. cbn [fst]. now destruct (f g). Qed.

Lemma and_then_snd m f : snd (m >>> f) = snd m ++ snd (f (fst m)).
Proof. destruct m as [g s]. unfold and_then. cbn [fst snd]. now destruct (f g). Qed.

Lemma wall_bounce_snd g :
  snd (wall_bounce g) = if hits_wall g then [boop_sound] else [].
Proof. unfold wall_bounce. now destruct (hits_wall g). Qed.

Lemma paddle_bounce_snd g :
  snd (paddle_bounce g) = if hits_paddle g then [beep_sound] else [].
Proof. unfold paddle_bounce. now destruct (hits_paddle g). Qed.

Lemma score_left_snd g :
  snd (score_left g) = if past_left g then [score_sound] else [].
Proof. unfold score_left. now destruct (past_left g). Qed.

Lemma score_right_snd g :
  snd (score_right g) = if past_right g then [score_sound] else [].
Proof. unfold score_right. now destruct (past_right g). Qed.

Lemma wall_bounce_hits_paddle g :
  hits_paddle (fst (wall_bounce g)) = hits_paddle g.
Proof. unfold wall_bounce. now destruct (hits_wall g). Qed.

(** The sounds of an effective update, in the order they are played. *)
Lemma tick_snd keys now g :
  let a := advanced keys now g in
  snd (tick keys now g) =
  (if hits_wall a then [boop_sound] else []) ++
  (if hits_paddle a then [beep_sound] else []) ++
  (if past_left a then [score_sound] else []) ++
  (if past_right (fst (score_left (bounced keys now g)))
   then [score_sound] else []).
Proof.
  cbv zeta.
  assert (Hraw : snd (tick keys now g) =
                 snd ((advanced keys now g, []) >>> wall_bounce >>> paddle_bounce
                        >>> score_left >>> score_right)).
  { unfold tick, advanced, after_moves.
    now destruct (_ >>> score_right). }
  rewrite Hraw, !and_then_snd, !and_then_fst. cbn [fst snd app].
  fold (bounced keys now g).
  rewrite wall_bounce_snd, paddle_bounce_snd, score_left_snd, score_right_snd.
  rewrite wall_bounce_hits_paddle, bounced_past_left, <- !app_assoc.
  reflexivity.
Qed.

(** With the rectangles the program has, a paddle hit excludes a point and
    a point on the left excludes one on the right. *)
Lemma scoring_sounds a b :
  shaped a -> ball b = ball a ->
  (if hits_paddle a then [beep_sound] else []) ++
  (if past_left a then [score_sound] else []) ++
  (if past_right (fst (score_left b)) then [score_sound] else []) =
  (if hits_paddle a then [beep_sound]
   else if past_left a || past_right a then [score_sound] else []).
Proof.
  intros Ha Hb.
  assert (HL : past_left b = past_left a) by (unfold past_left; now rewrite Hb).
  assert (HR : past_right b = past_right a) by (unfold past_right; now rewrite Hb).
  assert (Hserve : past_right (serve BALL_SPEED (with_score2 (score2 b + 1) b))
                   = false).
  { apply serve_not_past_right. cbn [ball with_score2]. rewrite Hb. apply Ha. }
  unfold score_left. rewrite HL.
  destruct (hits_paddle a) eqn:Eh.
  - destruct (hits_paddle_in_play a Ha Eh) as [EL ER].
    rewrite EL. cbn [fst]. rewrite HR, ER. reflexivity.
  - destruct (past_left a); cbn [fst orb app].
    + rewrite Hserve. reflexivity.
    + rewrite HR. now destruct (past_right a).
Qed.

(** What an update of a reachable state plays: the wall sound when the
    advanced ball touches the top or the bottom, then the paddle sound when it
    overlaps a paddle, or else the score sound, once, when it is past the
    left or the right boundary; an update that returns early plays nothing.
    A paddle hit and a point never fall in the same update. *)
Theorem update_sounds keys now g :
  reachable g ->
  let a := advanced keys now g in
  (effective now g ->
   snd (update keys now g) =
   (if hits_wall a then [boop_sound] else []) ++
   (if hits_paddle a then [beep_sound]
    else if past_left a || past_right a then [score_sound] else [])) /\
  (~ effective now g -> snd (update keys now g) = []).
Proof.
  intros Hg. cbv zeta. split.
  - intros Heff.
    destruct (reachable_steady g Hg) as [Hsh _ _ _ _].
    pose proof (advanced_shaped keys now g Hsh) as Ha.
    destruct (bounced_rest keys now g) as (_ & _ & Hb & _). cbv zeta in Hb.
    rewrite (update_effective keys now g Heff).
    exact (eq_trans (tick_snd keys now g)
             (f_equal (app _) (scoring_sounds _ _ Ha Hb))).
  - intros Hno.
    destruct (update_cases keys now g) as [-> | [Heff _]];
      [reflexivity | contradiction].
Qed.

Lemma update_sounds_witness :
  snd (update no_keys 5024 lost_ball) = [score_sound] /\
  snd (update no_keys 1856 at_wall) = [boop_sound] /\
  snd (update no_keys 2112 at_paddle) = [beep_sound] /\
  snd (update no_keys 2111 at_paddle) = [].
Proof.
  split; [|split; [|split]].
  - refine (eq_trans (proj1 (update_sounds no_keys 5024 lost_ball
                               lost_ball_reachable) _) _).
    + split; vm_compute; [reflexivity | discriminate].
    + vm_compute; reflexivity.
  - refine (eq_trans (proj1 (update_sounds no_keys 1856 at_wall _) _) _).
    + apply reachable_run, reach_new.
    + split; vm_compute; [reflexivity | discriminate].
    + vm_compute; reflexivity.
  - refine (eq_trans (proj1 (update_sounds no_keys 2112 at_paddle _) _) _).
    + apply reachable_run, reach_new.
    + split; vm_compute; [reflexivity | discriminate].
    + vm_compute; reflexivity.
  - refine (proj2 (update_sounds no_keys 2111 at_paddle _) _).
    + apply reachable_run, reach_new.
    + intros [_ H]. revert H. vm_compute. intros H. apply H. reflexivity.
Defined.

(** ** Bounds on the ball and on the scores *)

(** The ball is inside the field horizontally and at most a step outside it
    vertically, heading back in when it touches the top or the bottom; the
    scores are between 0 and 5 and not both 5. *)
Record bounded (g : Game) : Prop := {
  bounded_x : 0 < Rect.left (ball g) /\ Rect.right (ball g) < WIDTH;
  bounded_y : - BALL_SPEED < Rect.top (ball g) /\
              Rect.bottom (ball g) < HEIGHT + BALL_SPEED;
  bounded_up : Rect.top (ball g) <= 0 -> snd (ball_speed g) = BALL_SPEED;
  bounded_down : HEIGHT <= Rect.bottom (ball g) -> snd (ball_speed g) = - BALL_SPEED;
  bounded_scores : 0 <= score1 g <= 5 /\ 0 <= score2 g <= 5 /\
                   score1 g + score2 g <= 9
}.

Lemma bounded_flags g ai lu coin :
  bounded g ->
  bounded (mkGame (paddle1 g) (paddle2 g) (ball g) (ball_speed g)
                  (score1 g) (score2 g) ai lu coin (game_over g)).
Proof. intros [Hx Hy Hu Hd Hs]. split; assumption. Qed.

Lemma reset_bounded g : bounded (reset g).
Proof.
  split; cbn; consts; lia.
Qed.

(** One vertical step of a ball that is either inside the field or on its
    way back in. *)
Lemma bounce_bounds y vy :
  (vy = BALL_SPEED \/ vy = - BALL_SPEED) ->
  - BALL_SPEED < y -> y + BALL_SIZE < HEIGHT + BALL_SPEED ->
  (y <= 0 -> vy = BALL_SPEED) ->
  (HEIGHT <= y + BALL_SIZE -> vy = - BALL_SPEED) ->
  let y' := y + vy in
  let vy' := if (y' <=? 0) || (HEIGHT <=? y' + BALL_SIZE) then - vy else vy in
  - BALL_SPEED < y' /\ y' + BALL_SIZE < HEIGHT + BALL_SPEED /\
  (y' <= 0 -> vy' = BALL_SPEED) /\
  (HEIGHT <= y' + BALL_SIZE -> vy' = - BALL_SPEED).
Proof.
  consts. intros Hv Hlo Hhi Hup Hdown. cbv zeta.
  destruct (Z.leb_spec (y + vy) 0), (Z.leb_spec 480 (y + vy + 10));
    cbn [orb]; lia.
Qed.

Lemma win_check_bounded g : bounded g -> bounded (win_check g).
Proof.
  intros [Hx Hy Hu Hd Hs].
  destruct (win_check_rest g) as (_ & _ & E1 & E2 & E3 & E4).
  split; rewrite ?E1, ?E2, ?E3, ?E4; assumption.
Qed.

Lemma serve_bounded vx s :
  Rect.w (ball s) = BALL_SIZE -> Rect.h (ball s) = BALL_SIZE ->
  0 <= score1 s <= 5 -> 0 <= score2 s <= 5 -> score1 s + score2 s <= 9 ->
  bounded (serve vx s).
Proof.
  intros Wb Hb H1 H2 H12.
  split; unfold serve, Rect.left, Rect.right, Rect.top, Rect.bottom;
    cbn [ball ball_speed score1 score2 with_ball with_ball_speed
         Rect.set_center Rect.x Rect.y Rect.w Rect.h fst snd];
    rewrite ?Wb, ?Hb; consts; cbn; auto; lia.
Qed.

Lemma tick_bounded keys now g :
  steady g -> bounded g -> effective now g -> bounded (fst (tick keys now g)).
Proof.
  intros [[_ _ [Wb Hb]] [_ Hvy] _ _ Hover] [Hx Hy Hu Hd Hs] [Hplay _].
  assert (Hlow : score1 g < 5 /\ score2 g < 5).
  { destruct (Z.lt_ge_cases (score1 g) 5), (Z.lt_ge_cases (score2 g) 5);
      try (split; assumption);
      enough (game_over g = true) by congruence; apply Hover; auto. }
  destruct (bounced_rest keys now g) as (_ & _ & Bb & B1 & B2 & _).
  cbv zeta in Bb. rewrite advanced_ball in Bb.
  pose proof (bounced_speed keys now g) as Bv. cbv zeta in Bv.
  assert (Hwall : hits_wall (advanced keys now g) =
                  (Rect.y (ball g) + snd (ball_speed g) <=? 0)
                  || (HEIGHT <=? Rect.y (ball g) + snd (ball_speed g) + BALL_SIZE)).
  { unfold hits_wall. rewrite advanced_ball. unfold Rect.top, Rect.bottom.
    cbn [Rect.y Rect.h]. rewrite Hb. reflexivity. }
  rewrite Hwall in Bv. clear Hwall.
  destruct (tick_outcomes keys now g Wb) as [L | L R | L R];
    [ clear L | clear L R | ];
    revert Bb Bv B1 B2; generalize (bounced keys now g);
    intros b Bb Bv B1 B2; apply win_check_bounded.
  - apply serve_bounded; cbn [ball score1 score2 with_score2];
      rewrite ?Bb, ?B1; cbn [Rect.w Rect.h]; try assumption; lia.
  - apply serve_bounded; cbn [ball score1 score2 with_score1];
      rewrite ?Bb, ?B2; cbn [Rect.w Rect.h]; try assumption; lia.
  - unfold past_left, past_right in L, R. rewrite advanced_ball in L, R.
    unfold Rect.left, Rect.right in L, R. cbn [Rect.x Rect.w] in L, R.
    rewrite Wb in R. bool_hyps.
    destruct (bounce_bounds (Rect.y (ball g)) (snd (ball_speed g)) Hvy)
      as (Y1 & Y2 & Y3 & Y4);
      try (unfold Rect.top, Rect.bottom in Hy, Hu, Hd; rewrite Hb in Hy, Hd;
           first [apply Hy | exact Hu | exact Hd]).
    cbv zeta in Y3, Y4.
    split; rewrite ?Bb, ?Bv, ?B1, ?B2;
      unfold Rect.left, Rect.right, Rect.top, Rect.bottom;
      cbn [Rect.x Rect.y Rect.w Rect.h fst snd]; rewrite ?Wb, ?Hb;
      first [assumption | split; assumption].
Qed.

Lemma reachable_bounded g : reachable g -> bounded g.
Proof.
  intros Hg. enough (H : steady g /\ bounded g) by apply H.
  revert g Hg. apply reachable_ind_ops.
  - intros now. split.
    + exact (steady_flags _ true now true (reset_steady unset)).
    + exact (bounded_flags _ true now true (reset_bounded unset)).
  - intros g _. split; [apply reset_steady | apply reset_bounded].
  - intros b g [Hs Hb]. split.
    + exact (steady_flags _ b _ _ Hs).
    + exact (bounded_flags _ b _ _ Hb).
  - intros g [Hs Hb]. split.
    + exact (steady_flags _ _ _ false Hs).
    + exact (bounded_flags _ _ _ false Hb).
  - intros keys now g [Hs Hb] Heff. split.
    + apply tick_steady; assumption.
    + apply tick_bounded; assumption.
Qed.

(** A fresh game that nobody touches, at the end of its match: 3 - 5 after
    905 updates, the "insert coin" flag still set. *)
Definition untouched_end : Game := fst (update no_keys 28960 match_point).

Lemma untouched_end_reachable : reachable untouched_end.
Proof. apply reach_update, match_point_reachable. Defined.

(** A fresh game left alone, just after its first bounce off the bottom. *)
Definition off_the_floor : Game := run no_keys 58 (new_game 0).

(** In every reachable state the ball is strictly inside the field
    horizontally and less than one step of [BALL_SPEED] outside it
    vertically; when it touches or crosses the top it is moving down, and
    when it touches or crosses the bottom it is moving up, so that it never
    stays on a wall. *)
Theorem ball_stays_in_field g :
  reachable g ->
  0 < Rect.left (ball g) /\ Rect.right (ball g) < WIDTH /\
  - BALL_SPEED < Rect.top (ball g) /\ Rect.bottom (ball g) < HEIGHT + BALL_SPEED /\
  (Rect.top (ball g) <= 0 -> snd (ball_speed g) = BALL_SPEED) /\
  (HEIGHT <= Rect.bottom (ball g) -> snd (ball_speed g) = - BALL_SPEED).
Proof.
  intros Hg. destruct (reachable_bounded g Hg) as [[Hl Hr] [Ht Hb] Hu Hd _].
  repeat split; assumption.
Qed.

Lemma ball_stays_in_field_witness :
  Rect.bottom (ball off_the_floor) = 482 /\
  snd (ball_speed off_the_floor) = - BALL_SPEED.
Proof.
  assert (Hb : Rect.bottom (ball off_the_floor) = 482) by (vm_compute; reflexivity).
  split; [exact Hb|].
  refine (proj2 (proj2 (proj2 (proj2 (proj2
            (ball_stays_in_field off_the_floor _))))) _).
  - apply reachable_run, reach_new.
  - rewrite Hb. unfold HEIGHT. lia.
Defined.

(** In every reachable state both scores are between 0 and 5 and at most
    one of them is 5: the match stops at the first player to reach 5 and a
    score never passes it. *)
Theorem scores_bounded g :
  reachable g ->
  0 <= score1 g <= 5 /\ 0 <= score2 g <= 5 /\ score1 g + score2 g <= 9.
Proof.
  intros Hg. apply (bounded_scores g (reachable_bounded g Hg)).
Qed.

Lemma scores_bounded_witness :
  (score1 untouched_end = 3 /\ score2 untouched_end = 5) /\
  0 <= score1 untouched_end <= 5 /\ 0 <= score2 untouched_end <= 5 /\
  score1 untouched_end + score2 untouched_end <= 9.
Proof.
  split; [split; vm_compute; reflexivity|].
  exact (scores_bounded untouched_end untouched_end_reachable).
Defined.

(** ** Keys, AI and the paddles *)

(** With the AI enabled the arrow keys are dead: an update gives the same
    state and the same sounds whatever [K_UP] and [K_DOWN] are. *)
Theorem arrows_ignored_by_ai w s u d u' d' now g :
  ai_active g = true ->
  update (mkKeys w s u d) now g = update (mkKeys w s u' d') now g.
Proof.
  intros Hai. unfold update, tick.
  assert (Hm : move_paddles (mkKeys w s u d) (with_last_update now g)
               = move_paddles (mkKeys w s u' d') (with_last_update now g)).
  { unfold move_paddles.
    cbn [K_w K_s K_UP K_DOWN ai_active with_paddle1 with_last_update].
    rewrite Hai. reflexivity. }
  rewrite Hm. reflexivity.
Qed.

Lemma arrows_ignored_by_ai_witness :
  update (mkKeys false false true false) 32 (new_game 0)
  = update (mkKeys false false false true) 32 (new_game 0).
Proof.
  apply (arrows_ignored_by_ai false false true false false true 32 (new_game 0)).
  reflexivity.
Defined.

Lemma key_move_cases up down p :
  Rect.x (key_move up down p) = Rect.x p /\
  Rect.w (key_move up down p) = Rect.w p /\
  Rect.h (key_move up down p) = Rect.h p /\
  (Rect.y (key_move up down p) = Rect.y p \/
   Rect.y (key_move up down p) = Rect.y p - PADDLE_SPEED \/
   Rect.y (key_move up down p) = Rect.y p + PADDLE_SPEED).
Proof.
  unfold key_move. cbv zeta.
  destruct (up && (0 <? Rect.top p));
    match goal with |- context [down && ?c] => destruct (down && c) end;
    cbn [Rect.set_y Rect.x Rect.y Rect.w Rect.h]; repeat split; auto.
  left. ring.
Qed.

(** An update moves each paddle vertically only and by at most one step:
    its column and its size are unchanged and its top is where it was, or
    [PADDLE_SPEED] above, or [PADDLE_SPEED] below.  This holds for every
    state, key combination and time. *)
Theorem paddles_move_one_step keys now g :
  let g' := fst (update keys now g) in
  let one_step p p' :=
    Rect.x p' = Rect.x p /\ Rect.w p' = Rect.w p /\ Rect.h p' = Rect.h p /\
    (Rect.y p' = Rect.y p \/ Rect.y p' = Rect.y p - PADDLE_SPEED \/
     Rect.y p' = Rect.y p + PADDLE_SPEED) in
  one_step (paddle1 g) (paddle1 g') /\ one_step (paddle2 g) (paddle2 g').
Proof.
  cbv zeta.
  destruct (update_cases keys now g) as [-> | [_ ->]].
  - cbn [fst]. repeat split; auto.
  - destruct (tick_paddles keys now g) as [-> ->].
    rewrite after_moves_paddle1, after_moves_paddle2.
    split; [apply key_move_cases|].
    destruct (negb (ai_active g)); [apply key_move_cases|].
    destruct (ai_move_size (ball g) (paddle2 g)) as (-> & -> & ->).
    repeat split.
    destruct (ai_move_cases (ball g) (paddle2 g))
      as [[-> _] | [(_ & _ & ->) | (_ & _ & ->)]]; cbn [Rect.set_y Rect.y]; auto.
Qed.

(** Holding both keys of paddle one: the paddle goes up one step and, the
    second test being made on the moved paddle, down again, so that it stays
    where it is -- except at the very top of the field, where the first move
    is refused and the second still made: there the paddle goes down. *)
Theorem both_keys_held keys now g :
  effective now g ->
  on_grid (paddle1 g) -> in_field (paddle1 g) ->
  K_w keys = true -> K_s keys = true ->
  paddle1 (fst (update keys now g)) =
  if Rect.top (paddle1 g) =? 0
  then Rect.set_y PADDLE_SPEED (paddle1 g)
  else paddle1 g.
Proof.
  intros Heff [Hh Hm] [Htop Hbot] Hw Hs.
  rewrite (update_effective keys now g Heff).
  destruct (tick_paddles keys now g) as [-> _].
  rewrite after_moves_paddle1, Hw, Hs.
  destruct (paddle1 g) as [x y w h].
  unfold Rect.top, Rect.bottom in *. cbn [Rect.x Rect.y Rect.w Rect.h] in *.
  subst h. unfold key_move, Rect.top, Rect.bottom, Rect.set_y.
  cbn [Rect.x Rect.y Rect.w Rect.h andb]. consts.
  destruct (Z.eqb_spec y 0) as [-> | Hy].
  - reflexivity.
  - destruct (Z.ltb_spec 0 y); [|lia].
    cbn [Rect.x Rect.y Rect.w Rect.h].
    destruct (Z.ltb_spec (y - 3 + 60) 480); [|lia].
    f_equal. ring.
Qed.

Lemma both_keys_held_witness :
  paddle1 (fst (update (mkKeys true true false false) 32 (new_game 0)))
    = paddle1 (new_game 0) /\
  paddle1 (fst (update (mkKeys true true false false) 32
                  (with_paddle1 (Rect.mk 50 0 10 60) (new_game 0))))
    = Rect.mk 50 3 10 60.
Proof.
  split.
  - refine (both_keys_held (mkKeys true true false false) 32 (new_game 0)
              _ _ _ eq_refl eq_refl).
    + split; [reflexivity | cbn; lia].
    + split; reflexivity.
    + split; cbn; consts; lia.
  - refine (both_keys_held (mkKeys true true false false) 32
              (with_paddle1 (Rect.mk 50 0 10 60) (new_game 0))
              _ _ _ eq_refl eq_refl).
    + split; [reflexivity | cbn; lia].
    + split; reflexivity.
    + split; cbn; consts; lia.
Defined.

(** ** The flags an update leaves alone *)

Lemma and_then_coin b (m : Game * list Sound) (f : Step) :
  (forall g, f (with_insert_coin b g)
             = (with_insert_coin b (fst (f g)), snd (f g))) ->
  (with_insert_coin b (fst m), snd m) >>> f
  = (with_insert_coin b (fst (m >>> f)), snd (m >>> f)).
Proof.
  intros Hf. destruct m as [g s]. unfold and_then. cbn [fst snd].
  rewrite Hf. destruct (f g) as [g' s']. reflexivity.
Qed.

Lemma wall_bounce_coin b g :
  wall_bounce (with_insert_coin b g)
  = (with_insert_coin b (fst (wall_bounce g)), snd (wall_bounce g)).
Proof.
  unfold wall_bounce.
  change (hits_wall (with_insert_coin b g)) with (hits_wall g).
  destruct (hits_wall g); reflexivity.
Qed.

Lemma paddle_bounce_coin b g :
  paddle_bounce (with_insert_coin b g)
  = (with_insert_coin b (fst (paddle_bounce g)), snd (paddle_bounce g)).
Proof.
  unfold paddle_bounce.
  change (hits_paddle (with_insert_coin b g)) with (hits_paddle g).
  destruct (hits_paddle g); reflexivity.
Qed.

Lemma score_left_coin b g :
  score_left (with_insert_coin b g)
  = (with_insert_coin b (fst (score_left g)), snd (score_left g)).
Proof.
  unfold score_left.
  change (past_left (with_insert_coin b g)) with (past_left g).
  destruct (past_left g); reflexivity.
Qed.

Lemma score_right_coin b g :
  score_right (with_insert_coin b g)
  = (with_insert_coin b (fst (score_right g)), snd (score_right g)).
Proof.
  unfold score_right.
  change (past_right (with_insert_coin b g)) with (past_right g).
  destruct (past_right g); reflexivity.
Qed.

Lemma win_check_coin b g :
  win_check (with_insert_coin b g) = with_insert_coin b (win_check g).
Proof.
  unfold win_check. cbn [score1 score2 with_insert_coin].
  destruct (_ || _); reflexivity.
Qed.

Lemma tick_coin b keys now g :
  tick keys now (with_insert_coin b g)
  = (with_insert_coin b (fst (tick keys now g)), snd (tick keys now g)).
Proof.
  unfold tick.
  assert (Ha : advance_ball (move_paddles keys
                 (with_last_update now (with_insert_coin b g)))
               = with_insert_coin b
                   (advance_ball (move_paddles keys (with_last_update now g)))).
  { unfold advance_ball, move_paddles.
    cbn [ai_active with_paddle1 with_last_update with_insert_coin].
    destruct (negb (ai_active g)); reflexivity. }
  rewrite Ha.
  set (a := advance_ball (move_paddles keys (with_last_update now g))).
  change (with_insert_coin b a, @nil Sound)
    with (with_insert_coin b (fst (a, @nil Sound)), snd (a, @nil Sound)).
  rewrite (and_then_coin b _ wall_bounce (wall_bounce_coin b)).
  rewrite (and_then_coin b _ paddle_bounce (paddle_bounce_coin b)).
  rewrite (and_then_coin b _ score_left (score_left_coin b)).
  rewrite (and_then_coin b _ score_right (score_right_coin b)).
  destruct (_ >>> score_right) as [g' s']. cbn [fst snd].
  rewrite win_check_coin. reflexivity.
Qed.

(** [update] neither reads nor writes the "insert coin" flag, and it does
    not write the AI flag: the match is played in the same way while the
    "INSERT COIN" text is on the screen as after the first key press. *)
Theorem update_ignores_insert_coin b keys now g :
  update keys now (with_insert_coin b g)
  = (with_insert_coin b (fst (update keys now g)), snd (update keys now g)) /\
  insert_coin (fst (update keys now g)) = insert_coin g /\
  ai_active (fst (update keys now g)) = ai_active g.
Proof.
  assert (Heq : forall c, update keys now (with_insert_coin c g)
     = (with_insert_coin c (fst (update keys now g)), snd (update keys now g))).
  { intros c. unfold update. cbn [game_over last_update with_insert_coin].
    destruct (game_over g); [reflexivity|].
    destruct (now - last_update g <? 32); [reflexivity|].
    apply tick_coin. }
  split; [apply Heq|]. split.
  - pose proof (f_equal (fun r => insert_coin (fst r)) (Heq (insert_coin g))) as H.
    cbn [fst insert_coin with_insert_coin] in H.
    rewrite <- H. f_equal. f_equal. destruct g; reflexivity.
  - destruct (update_cases keys now g) as [-> | [_ ->]]; [reflexivity|].
    rewrite tick_fst. unfold win_check, score_right, score_left.
    assert (Hb : ai_active (bounced keys now g) = ai_active g).
    { unfold bounced, paddle_bounce, wall_bounce, advanced, advance_ball,
        after_moves, move_paddles.
      destruct (hits_wall _); cbn [fst]; destruct (hits_paddle _); cbn [fst];
        cbn; destruct (negb (ai_active g)); reflexivity. }
    revert Hb. generalize (bounced keys now g). intros s Hb.
    destruct (past_left s); cbn [fst];
      match goal with |- context [past_right ?s] => destruct (past_right s) end;
      cbn [fst];
      match goal with |- context [if ?c then _ else _] => destruct c end;
      cbn; exact Hb.
Qed.

(** * The event loop *)

(** The pending events of one iteration, handled in order. *)
Definition handle_events (events : list Event) (st : Game * bool) : Game * bool :=
  fold_left (fun s e => handle_event e s) events st.

Lemma frame_events events keys now st :
  frame events keys now st =
  (fst (update keys now (fst (handle_events events st))),
   snd (handle_events events st),
   snd (update keys now (fst (handle_events events st)))).
Proof.
  unfold frame, handle_events.
  destruct (fold_left _ events st) as [g running]. cbn [fst snd].
  destruct (update keys now g). reflexivity.
Qed.

(** What one event does to the [running] flag and to the flags of the game. *)
Lemma handle_event_flags e g running :
  let g' := fst (handle_event e (g, running)) in
  let running' := snd (handle_event e (g, running)) in
  (running' = true -> running = true) /\
  (e <> QUIT -> e <> KEYDOWN K_ESCAPE ->
   (e <> KEYDOWN K_n \/ game_over g = false) -> running' = running) /\
  (e = QUIT \/ e = KEYDOWN K_ESCAPE -> running' = false) /\
  (game_over g = false -> game_over g' = false) /\
  (insert_coin g = false -> insert_coin g' = false) /\
  (forall k, e = KEYDOWN k -> insert_coin g' = false).
Proof.
  cbv zeta. destruct e as [| k |]; cbn.
  - repeat split; intros; intuition congruence.
  - destruct k; cbn; destruct (game_over g) eqn:E; cbn; rewrite ?E; cbn;
      repeat split; intros; intuition congruence.
  - repeat split; intros; intuition congruence.
Qed.

(** Once a quit has been requested nothing brings the loop back: [QUIT]
    and the escape key clear [running] wherever they stand among the events
    of an iteration, and no event sets it again. *)
Theorem quit_is_final events g running :
  let running' := snd (handle_events events (g, running)) in
  (running = false -> running' = false) /\
  (In QUIT events \/ In (KEYDOWN K_ESCAPE) events -> running' = false).
Proof.
  cbv zeta. unfold handle_events.
  revert g running. induction events as [| e evs IH]; intros g running.
  - cbn. split; [auto | intros [[] | []]].
  - cbn [fold_left]. destruct (handle_event e (g, running)) as [g1 r1] eqn:E.
    pose proof (handle_event_flags e g running) as (Hmono & _ & Hquit & _).
    cbv zeta in Hmono, Hquit. rewrite E in Hmono, Hquit. cbn [snd] in *.
    destruct (IH g1 r1) as [IH1 IH2]. split.
    + intros ->. apply IH1.
      destruct r1; [discriminate (Hmono eq_refl) | reflexivity].
    + intros [[-> | Hin] | [-> | Hin]]; auto.
Qed.

(** While a match is being played the key N does nothing to the loop: a
    batch of events without [QUIT] and without the escape key leaves
    [running] as it was, and no batch of events ends the match. *)
Theorem n_key_ignored_in_play events g running :
  game_over g = false ->
  ~ In QUIT events -> ~ In (KEYDOWN K_ESCAPE) events ->
  snd (handle_events events (g, running)) = running /\
  game_over (fst (handle_events events (g, running))) = false.
Proof.
  unfold handle_events.
  revert g running. induction events as [| e evs IH]; intros g running Hplay Hq He.
  - cbn. auto.
  - cbn [fold_left]. destruct (handle_event e (g, running)) as [g1 r1] eqn:E.
    pose proof (handle_event_flags e g running) as (_ & Hkeep & _ & Hover & _).
    cbv zeta in Hkeep, Hover. rewrite E in Hkeep, Hover. cbn [fst snd] in *.
    assert (r1 = running) as ->.
    { apply Hkeep; [intros -> | intros -> | right; exact Hplay];
        [apply Hq | apply He]; left; reflexivity. }
    apply IH; [apply Hover, Hplay | |]; intros Hin;
      [apply Hq | apply He]; right; exact Hin.
Qed.

Lemma n_key_ignored_in_play_witness :
  snd (handle_events [KEYDOWN K_n; KEYDOWN K_y; KEYDOWN K_n] (new_game 0, true))
    = true /\
  game_over (fst (handle_events [KEYDOWN K_n; KEYDOWN K_y; KEYDOWN K_n]
                    (new_game 0, true))) = false.
Proof.
  apply (n_key_ignored_in_play [KEYDOWN K_n; KEYDOWN K_y; KEYDOWN K_n]
           (new_game 0) true).
  - reflexivity.
  - intros [H | [H | [H | []]]]; discriminate H.
  - intros [H | [H | [H | []]]]; discriminate H.
Defined.

(** The "insert coin" flag is cleared by the first key press, whatever the
    key, and nothing sets it again: neither an event nor an update. *)
Theorem insert_coin_cleared_for_good e g running keys now :
  (forall k, e = KEYDOWN k ->
     insert_coin (fst (handle_event e (g, running))) = false) /\
  (insert_coin g = false ->
     insert_coin (fst (handle_event e (g, running))) = false /\
     insert_coin (fst (update keys now g)) = false).
Proof.
  pose proof (handle_event_flags e g running) as (_ & _ & _ & _ & Hstay & Hkey).
  cbv zeta in Hstay, Hkey.
  split; [exact Hkey|]. intros Hoff. split; [apply Hstay, Hoff|].
  destruct (update_ignores_insert_coin false keys now g) as (_ & -> & _).
  exact Hoff.
Qed.

Lemma run_coin b keys n :
  forall g, run keys n (with_insert_coin b g) = with_insert_coin b (run keys n g).
Proof.
  induction n as [| n IH]; intros g; cbn [run]; [reflexivity|].
  cbn [last_update with_insert_coin].
  destruct (update_ignores_insert_coin b keys (last_update g + 32) g) as (-> & _).
  cbn [fst]. apply IH.
Qed.

(** The keys that restart a match: R at any time, Y once the match is
    over.  Either puts the game in the state the constructor would build at
    the time of the last update, but for the AI mode, which carries over, and
    for the "insert coin" flag, which is off; from there the match unfolds
    exactly as a fresh one in that mode does. *)
Theorem restart_is_fresh g running keys n :
  let fresh := with_ai_active (ai_active g) (new_game (last_update g)) in
  fst (handle_event (KEYDOWN K_r) (g, running)) = with_insert_coin false fresh /\
  (game_over g = true ->
   fst (handle_event (KEYDOWN K_y) (g, running)) = with_insert_coin false fresh) /\
  run keys n (with_insert_coin false fresh)
  = with_insert_coin false (run keys n fresh).
Proof.
  cbv zeta. split; [reflexivity|].
  split; [intros H; cbn; rewrite H; reflexivity|].
  apply run_coin.
Qed.

Lemma restart_is_fresh_witness :
  fst (handle_event (KEYDOWN K_y) (untouched_end, true))
  = with_insert_coin false
      (with_ai_active (ai_active untouched_end)
         (new_game (last_update untouched_end))).
Proof.
  refine (proj1 (proj2 (restart_is_fresh untouched_end true no_keys 0)) _).
  vm_compute. reflexivity.
Defined.

Lemma quit_is_final_witness :
  snd (handle_events [KEYDOWN K_1; QUIT; KEYDOWN K_r] (new_game 0, true)) = false.
Proof.
  refine (proj2 (quit_is_final [KEYDOWN K_1; QUIT; KEYDOWN K_r] (new_game 0) true) _).
  left. right. left. reflexivity.
Defined.

Lemma insert_coin_cleared_witness :
  insert_coin (new_game 0) = true /\
  insert_coin (fst (handle_event (KEYDOWN K_other) (new_game 0, true))) = false.
Proof.
  split; [reflexivity|].
  exact (proj1 (insert_coin_cleared_for_good (KEYDOWN K_other) (new_game 0) true
                  no_keys 0) K_other eq_refl).
Defined.

(** * The frame *)

Definition digit (n : Z) : Ascii.ascii := Ascii.ascii_of_N (48 + Z.to_N n).

(** In every reachable state the score line is five characters long: the
    digit of the left score, a dash between two spaces, the digit of the
    right score. *)
Theorem score_text_digits g :
  reachable g ->
  score_text g
  = String (digit (score1 g)) (" - " ++ String (digit (score2 g)) "")%string.
Proof.
  intros Hg. destruct (scores_bounded g Hg) as (H1 & H2 & _).
  unfold score_text.
  assert (E1 : score1 g = 0 \/ score1 g = 1 \/ score1 g = 2 \/ score1 g = 3 \/
               score1 g = 4 \/ score1 g = 5) by lia.
  assert (E2 : score2 g = 0 \/ score2 g = 1 \/ score2 g = 2 \/ score2 g = 3 \/
               score2 g = 4 \/ score2 g = 5) by lia.
  destruct E1 as [-> | [-> | [-> | [-> | [-> | ->]]]]];
    destruct E2 as [-> | [-> | [-> | [-> | [-> | ->]]]]]; reflexivity.
Qed.

Lemma score_text_digits_witness :
  score_text untouched_end = "3 - 5"%string.
Proof.
  refine (eq_trans (score_text_digits untouched_end untouched_end_reachable) _).
  vm_compute. reflexivity.
Defined.

(** A game can be over with the "insert coin" flag still set -- a fresh
    game that nobody touches ends that way -- and the frame of such a state
    ends with the two prompts, both blitted at the same row, the middle of
    the field, one over the other. *)
Theorem prompts_overlap get_width :
  (exists g, reachable g /\ insert_coin g = true /\ game_over g = true) /\
  (forall g,
     insert_coin g = true -> game_over g = true ->
     exists earlier,
       draw get_width g =
       earlier ++ [centred get_width "INSERT COIN" (HEIGHT / 2);
                   centred get_width "Play Again? Y/N" (HEIGHT / 2)]).
Proof.
  split.
  - exists untouched_end. split; [exact untouched_end_reachable|].
    split; vm_compute; reflexivity.
  - intros g Hcoin Hover. unfold draw. rewrite Hcoin, Hover.
    exists ([Fill BLACK; DrawRect WHITE (paddle1 g); DrawRect WHITE (paddle2 g);
             DrawRect WHITE (ball g)]
            ++ map (fun y => DrawRect WHITE (Rect.mk (WIDTH / 2 - 2) y 4 4))
                   (py_range 0 HEIGHT 10)
            ++ [centred get_width (score_text g) 20]
            ++ map (fun y => DrawLine SCANLINE_COLOR (0, y) (WIDTH, y))
                   (py_range 0 HEIGHT 4)).
    rewrite <- !app_assoc. reflexivity.
Qed.

Lemma prompts_overlap_witness :
  exists earlier,
    draw (fun s => 14 * Z.of_nat (String.length s)) untouched_end =
    earlier ++ [Blit "INSERT COIN" WHITE (243, 240);
                Blit "Play Again? Y/N" WHITE (215, 240)].
Proof.
  apply (proj2 (prompts_overlap (fun s => 14 * Z.of_nat (String.length s)))
               untouched_end);
    vm_compute; reflexivity.
Defined.

(** What [range(0, stop, step)] runs through: the multiples of [step] from
    0 up to, and not including, [stop]. *)
Lemma in_py_range stop step y :
  0 < step -> 0 <= stop ->
  In y (py_range 0 stop step) <-> (0 <= y < stop /\ y mod step = 0).
Proof.
  intros Hstep Hstop. unfold py_range. rewrite in_map_iff.
  pose proof (Z.div_mod (stop - 0 + step - 1) step ltac:(lia)) as Hdm.
  pose proof (Z.mod_pos_bound (stop - 0 + step - 1) step Hstep) as Hmb.
  assert (Hn : 0 <= (stop - 0 + step - 1) / step)
    by (apply Z.div_pos; lia).
  split.
  - intros (i & <- & Hi). apply in_seq in Hi.
    assert (Hlt : Z.of_nat i < (stop - 0 + step - 1) / step) by lia.
    split; [nia|].
    rewrite Z.add_0_l, Z.mul_comm. apply Z.mod_mul. lia.
  - intros [Hy Hm]. apply Z.mod_divide in Hm; [|lia]. destruct Hm as [q ->].
    exists (Z.to_nat q).
    assert (Hq : 0 <= q) by nia.
    split; [rewrite Z2Nat.id by exact Hq; ring|].
    apply in_seq. split; [lia|].
    assert (q < (stop - 0 + step - 1) / step) by nia. lia.
Qed.

(** The scan lines are the same in every frame: one horizontal line across
    the whole width at each row that is a multiple of 4, from the top of the
    field to its bottom, and no other line is drawn. *)
Theorem scanlines_cover get_width g c p q :
  In (DrawLine c p q) (draw get_width g) <->
  (c = SCANLINE_COLOR /\
   exists y, 0 <= y < HEIGHT /\ y mod 4 = 0 /\ p = (0, y) /\ q = (WIDTH, y)).
Proof.
  unfold draw. rewrite !in_app_iff, !in_map_iff. split.
  - intros [H | [H | [H | [H | [H | H]]]]].
    + cbn in H. intuition discriminate.
    + destruct H as (y & H & _). discriminate H.
    + cbn in H. unfold centred in H. intuition discriminate.
    + destruct H as (y & H & Hin). injection H as <- <- <-.
      apply in_py_range in Hin; [|lia | unfold HEIGHT; lia].
      split; [reflexivity|]. exists y. tauto.
    + destruct (insert_coin g); cbn in H; unfold centred in H;
        intuition discriminate.
    + destruct (game_over g); cbn in H; unfold centred in H;
        intuition discriminate.
  - intros (-> & y & Hy & Hm & -> & ->).
    right. right. right. left. exists y. split; [reflexivity|].
    apply in_py_range; [lia | unfold HEIGHT; lia | tauto].
Qed.

(** * The loop and the reachable states *)

Lemma handle_events_reachable events :
  forall g running,
    reachable g -> reachable (fst (handle_events events (g, running))).
Proof.
  unfold handle_events.
  induction events as [| e evs IH]; intros g running Hg; cbn [fold_left].
  - exact Hg.
  - pose proof (reach_event e g running Hg) as H1.
    destruct (handle_event e (g, running)) as [g1 r1]. apply IH, H1.
Qed.

(** One iteration of the loop -- any batch of events, then [update] with any
    keys at any time -- takes a reachable state to a reachable state: what
    holds of the reachable states holds of the game at the end of every
    iteration of [main], and in particular of the state that is drawn. *)
Theorem frame_reachable events keys now g running :
  reachable g ->
  let g' := fst (fst (frame events keys now (g, running))) in
  reachable g' /\
  paddles_in_field g' /\ unit_speed (ball_speed g') /\
  (game_over g' = true <-> (5 <= score1 g' \/ 5 <= score2 g')) /\
  0 < Rect.left (ball g') /\ Rect.right (ball g') < WIDTH.
Proof.
  intros Hg. cbv zeta. rewrite frame_events. cbn [fst].
  assert (Hr : reachable
                 (fst (update keys now (fst (handle_events events (g, running))))))
    by (apply reach_update, handle_events_reachable, Hg).
  destruct (reachable_steady _ Hr) as [_ Hv Hf _ Ho].
  destruct (reachable_bounded _ Hr) as [[Hl Hrt] _ _ _ _].
  split; [exact Hr|]. split; [exact Hf|]. split; [exact Hv|].
  split; [exact Ho|]. split; assumption.
Qed.

Lemma frame_reachable_witness :
  reachable (fst (fst (frame [KEYDOWN K_2; KEYDOWN K_r]
                         (mkKeys true false false true) 64 (new_game 0, true)))).
Proof.
  exact (proj1 (frame_reachable [KEYDOWN K_2; KEYDOWN K_r]
                  (mkKeys true false false true) 64 (new_game 0) true
                  (reach_new 0))).
Defined.
